(** * Prior-box operator (paddle/operators/prior_box_op.h)

    A shallow embedding of [ExpandAspectRatios], [ClipFunctor] and
    [PriorBoxOpKernel::Compute], and the properties of the prior-box
    specification checked against it.

    Numbers.  The C++ [float] and [double] values are IEEE 754 binary32 and
    binary64 numbers, modelled by [spec_float] with the operations of
    [SpecFloat] (round to nearest, ties to even; one NaN).  Every C++
    expression is evaluated in the type the usual arithmetic conversions give
    it: an operand that meets a [double] literal such as [1.] or [2.] is
    widened and the operation is done in binary64, and a value stored in a
    [float] variable or in the tensor is rounded to binary32.  The kernel is
    taken at its instantiation [T = float].  The unqualified calls [sqrt] and
    [fabs] are the C library functions on [double]; [fabs] is exact, so the
    tests built on it do not depend on that choice.

    Integers.  [int] values are elements of [Z]; the one product of two
    attribute values, [min_size * max_size], is wrapped to 32 bits.  Tensor
    dimensions, vector lengths and loop counters are natural numbers.

    Values.  The properties that compare numbers read a float as a rational
    number or an infinity ([val]).  The part on binary floating-point
    numbers shows that the operations of [SpecFloat] used here return the
    rounding of the exact result ([Rnd]), that this rounding is monotone and
    that [SFcompare] compares the values. *)

From Stdlib Require Import ZArith List Bool Lia QArith Qpower Lqa Qfield.
From Stdlib Require Import Floats.SpecFloat.
From stdpp Require Import gmap.
Import ListNotations.

(** ** Floating-point formats *)

Abbreviation float := spec_float (only parsing).
Abbreviation double := spec_float (only parsing).

Module F32.
Definition prec : Z := 24.
Definition emax : Z := 128.
Definition add := SFadd prec emax.
Definition sub := SFsub prec emax.
Definition mul := SFmul prec emax.
Definition div := SFdiv prec emax.
(** conversion of an integer, as in [static_cast<float>(n)] *)
Definition of_Z (z : Z) : float := binary_normalize prec emax z 0 false.
Definition valid (x : float) : bool := valid_binary prec emax x.
End F32.

Module F64.
Definition prec : Z := 53.
Definition emax : Z := 1024.
Definition add := SFadd prec emax.
Definition sub := SFsub prec emax.
Definition mul := SFmul prec emax.
Definition div := SFdiv prec emax.
Definition sqrt := SFsqrt prec emax.
Definition of_Z (z : Z) : double := binary_normalize prec emax z 0 false.
Definition valid (x : double) : bool := valid_binary prec emax x.
End F64.

(** widening [float -> double] *)
Definition f2d (x : float) : double :=
  match x with
  | S754_finite s m e => binary_round F64.prec F64.emax s m e
  | _ => x
  end.

(** narrowing [double -> float], on every store to a [float] object *)
Definition d2f (x : double) : float :=
  match x with
  | S754_finite s m e => binary_round F32.prec F32.emax s m e
  | _ => x
  end.

(** the literal [1e-6], a [double] *)
Definition lit_1e_6 : double := F64.div (F64.of_Z 1) (F64.of_Z 1000000).

(** [int * int], two's complement on 32 bits *)
Definition int_mul (a b : Z) : Z :=
  ((a * b + 2147483648) mod 4294967296 - 2147483648)%Z.

(** ** ExpandAspectRatios *)

(** [constexpr float eps = 1e-6;] *)
Definition eps : float := d2f lit_1e_6.

(** the test [fabs(ar - output_aspect_ratior[j]) < eps] *)
Definition within_eps (ar x : float) : bool :=
  SFltb (SFabs (F32.sub ar x)) eps.

(** the inner loop over [j], which stops at the first hit *)
Fixpoint already_exist (ar : float) (output : list float) : bool :=
  match output with
  | [] => false
  | x :: rest => if within_eps ar x then true else already_exist ar rest
  end.

(** [1. / ar], stored in a [std::vector<float>] *)
Definition reciprocal (ar : float) : float :=
  d2f (F64.div (F64.of_Z 1) (f2d ar)).

(** one iteration of the loop over [i] *)
Definition expand_step (flip : bool) (output : list float) (ar : float)
  : list float :=
  if already_exist ar output then output
  else
    let output := output ++ [ar] in
    if flip then output ++ [reciprocal ar] else output.

Definition ExpandAspectRatios (input_aspect_ratior : list float) (flip : bool)
  : list float :=
  fold_left (expand_step flip) input_aspect_ratior [d2f (F64.of_Z 1)].

(** ** ClipFunctor *)

(** [std::max(a, b)] is [(a < b) ? b : a] and [std::min(a, b)] is
    [(b < a) ? b : a] *)
Definition std_max (a b : float) : float := if SFltb a b then b else a.
Definition std_min (a b : float) : float := if SFltb b a then b else a.

Definition ClipFunctor (x : float) : float :=
  std_min (std_max x (d2f (F64.of_Z 0))) (d2f (F64.of_Z 1)).

(** ** PriorBoxOpKernel::Compute *)

Record config := {
  min_sizes : list Z;
  max_sizes : list Z;
  aspect_ratios : list float;
  variances : list float;
  flip : bool;
  clip : bool;
  step_w : float;
  step_h : float;
  offset : float;
  img_width : nat;
  img_height : nat;
  layer_width : nat;
  layer_height : nat
}.

(** The 4-D view [e_boxes(h, w, idx, k)]: a finite map from the four
    indices to the value stored there; a key that was never written has no
    value. *)
Abbreviation tensor4 := (gmap (nat * nat * nat * nat) float) (only parsing).

Definition step_width (c : config) : float :=
  if SFeqb (step_w c) (F32.of_Z 0) || SFeqb (step_h c) (F32.of_Z 0)
  then F32.div (F32.of_Z (Z.of_nat (img_width c)))
               (F32.of_Z (Z.of_nat (layer_width c)))
  else step_w c.

Definition step_height (c : config) : float :=
  if SFeqb (step_w c) (F32.of_Z 0) || SFeqb (step_h c) (F32.of_Z 0)
  then F32.div (F32.of_Z (Z.of_nat (img_height c)))
               (F32.of_Z (Z.of_nat (layer_height c)))
  else step_h c.

Definition num_priors (c : config) : nat :=
  let num_priors :=
    length (ExpandAspectRatios (aspect_ratios c) (flip c))
    * length (min_sizes c) in
  if 0 <? length (max_sizes c) then num_priors + length (max_sizes c)
  else num_priors.

Definition center_x (c : config) (w : nat) : float :=
  F32.mul (F32.add (F32.of_Z (Z.of_nat w)) (offset c)) (step_width c).

Definition center_y (c : config) (h : nat) : float :=
  F32.mul (F32.add (F32.of_Z (Z.of_nat h)) (offset c)) (step_height c).

(** [(center - box / 2.) / img] and [(center + box / 2.) / img], computed in
    [double] and stored as [T] *)
Definition coord_min (center box : float) (img : nat) : float :=
  d2f (F64.div (F64.sub (f2d center) (F64.div (f2d box) (F64.of_Z 2)))
               (F64.of_Z (Z.of_nat img))).

Definition coord_max (center box : float) (img : nat) : float :=
  d2f (F64.div (F64.add (f2d center) (F64.div (f2d box) (F64.of_Z 2)))
               (F64.of_Z (Z.of_nat img))).

(** The block of four stores followed by [idx++]; the source has it three
    times, once per kind of prior.  The tensor has the shape
    [layer_height, layer_width, num_priors, 4]: a key with [idx] below
    [num_priors] is the entry of the source, and a store at an [idx] from
    [num_priors] upwards, which the source does outside the slots of the
    cell, is kept here under its own key.  The loops reach such an [idx]
    only when [max_sizes] is not empty and shorter than [min_sizes]. *)
Definition put_prior (c : config) (h w : nat) (box_width box_height : float)
    (st : gmap (nat * nat * nat * nat) float * nat)
  : gmap (nat * nat * nat * nat) float * nat :=
  let '(e_boxes, idx) := st in
  let e_boxes :=
    <[(h, w, idx, 0) := coord_min (center_x c w) box_width (img_width c)]>
      e_boxes in
  let e_boxes :=
    <[(h, w, idx, 1) := coord_min (center_y c h) box_height (img_height c)]>
      e_boxes in
  let e_boxes :=
    <[(h, w, idx, 2) := coord_max (center_x c w) box_width (img_width c)]>
      e_boxes in
  let e_boxes :=
    <[(h, w, idx, 3) := coord_max (center_y c h) box_height (img_height c)]>
      e_boxes in
  (e_boxes, S idx).

(** the test [fabs(ar - 1.) < 1e-6] of the loop over the ratios *)
Definition is_unit_ratio (ar : float) : bool :=
  SFltb (SFabs (F64.sub (f2d ar) (F64.of_Z 1))) lit_1e_6.

(** [sqrt(min_size * max_size)], stored in the [float] [box_width] *)
Definition max_side (min_size max_size : Z) : float :=
  d2f (F64.sqrt (F64.of_Z (int_mul min_size max_size))).

(** [min_size * sqrt(ar)] and [min_size / sqrt(ar)], stored as [float] *)
Definition ratio_width (min_size : Z) (ar : float) : float :=
  d2f (F64.mul (F64.of_Z min_size) (F64.sqrt (f2d ar))).

Definition ratio_height (min_size : Z) (ar : float) : float :=
  d2f (F64.div (F64.of_Z min_size) (F64.sqrt (f2d ar))).

(** one iteration of the loop over the ratios [r] *)
Definition ratio_step (c : config) (h w : nat) (min_size : Z)
    (st : gmap (nat * nat * nat * nat) float * nat) (ar : float) :=
  if is_unit_ratio ar then st
  else put_prior c h w (ratio_width min_size ar) (ratio_height min_size ar) st.

(** One iteration of the loop over [s].  The read [max_sizes[s]] is past the
    end of the vector when [max_sizes] is not empty and shorter than
    [min_sizes]: the source does not define it, and [nth] returns 0 there.
    The properties that depend on the value read, or on the entries
    written, take [max_sizes] empty or at least as long as [min_sizes],
    where every index of the loops is in range. *)
Definition size_step (c : config) (ars : list float) (h w : nat)
    (st : gmap (nat * nat * nat * nat) float * nat) (s : nat) :=
  let min_size := nth s (min_sizes c) 0%Z in
  let st := put_prior c h w (F32.of_Z min_size) (F32.of_Z min_size) st in
  let st :=
    if 0 <? length (max_sizes c) then
      let max_size := nth s (max_sizes c) 0%Z in
      put_prior c h w (max_side min_size max_size)
                (max_side min_size max_size) st
    else st in
  fold_left (ratio_step c h w min_size) ars st.

(** the body of the loop over [w]: [idx] starts at 0 in every cell *)
Definition cell (c : config) (ars : list float) (h w : nat)
    (e_boxes : gmap (nat * nat * nat * nat) float)
  : gmap (nat * nat * nat * nat) float * nat :=
  fold_left (size_step c ars h w) (seq 0 (length (min_sizes c))) (e_boxes, 0).

Definition row (c : config) (ars : list float) (h : nat)
    (e_boxes : gmap (nat * nat * nat * nat) float) :=
  fold_left (fun e w => fst (cell c ars h w e)) (seq 0 (layer_width c)) e_boxes.

(** the two loops over [h] and [w], from the freshly allocated buffer *)
Definition generate (c : config) : gmap (nat * nat * nat * nat) float :=
  fold_left (fun e h => row c (ExpandAspectRatios (aspect_ratios c) (flip c)) h e)
            (seq 0 (layer_height c)) ∅.

(** [platform::Transform] over the whole buffer, in place *)
Definition transform (f : float -> float)
    (e : gmap (nat * nat * nat * nat) float) := f <$> e.

Record outputs := {
  Boxes : gmap (nat * nat * nat * nat) float;
  Variances : list (list float)
}.

Definition box_num (c : config) : nat :=
  layer_height c * layer_width c * num_priors c.

Definition PriorBoxOpKernel_Compute (c : config) : outputs :=
  let boxes := generate c in
  let boxes := if clip c then transform ClipFunctor boxes else boxes in
  (* var_et is the 1 x n row of the variances, broadcast box_num times *)
  let var_et := variances c in
  {| Boxes := boxes; Variances := repeat var_et (box_num c) |}.

(** ** The order of the priors of a cell, as the specification words it *)

(** width and height of a prior *)
Definition ratio_one (min_size : Z) : float * float :=
  (F32.of_Z min_size, F32.of_Z min_size).

Definition max_variant (min_size max_size : Z) : float * float :=
  (max_side min_size max_size, max_side min_size max_size).

Definition ratio_box (min_size : Z) (ar : float) : float * float :=
  (ratio_width min_size ar, ratio_height min_size ar).

(** the ratios [r] with [|r - 1.0| >= 1e-6], in expansion order *)
Definition non_unit (ars : list float) : list float :=
  filter (fun ar => is_unit_ratio ar = false) ars.

(** for the min-size index [s]: the ratio-1 box, the max-size variant when
    [max_sizes] is not empty, then the other ratios *)
Definition size_priors (c : config) (ars : list float) (s : nat)
  : list (float * float) :=
  let min_size := nth s (min_sizes c) 0%Z in
  [ratio_one min_size]
  ++ (if 0 <? length (max_sizes c)
      then [max_variant min_size (nth s (max_sizes c) 0%Z)] else [])
  ++ map (ratio_box min_size) (non_unit ars).

(** min-size-major *)
Definition cell_priors (c : config) (ars : list float) : list (float * float) :=
  flat_map (size_priors c ars) (seq 0 (length (min_sizes c))).

(** the four stored coordinates of a prior of the cell [(h, w)] *)
Definition prior_coord (c : config) (h w : nat) (p : float * float) (k : nat)
  : option float :=
  match k with
  | 0 => Some (coord_min (center_x c w) (fst p) (img_width c))
  | 1 => Some (coord_min (center_y c h) (snd p) (img_height c))
  | 2 => Some (coord_max (center_x c w) (fst p) (img_width c))
  | 3 => Some (coord_max (center_y c h) (snd p) (img_height c))
  | _ => None
  end.

(** a run of [put_prior] *)
Definition put_all (c : config) (h w : nat) (ps : list (float * float))
    (st : gmap (nat * nat * nat * nat) float * nat) :=
  fold_left (fun st p => put_prior c h w (fst p) (snd p) st) ps st.

(** ** The configurations of the specification's examples *)

(** [0.5f] *)
Definition half : float := F32.div (F32.of_Z 1) (F32.of_Z 2).

(** a 1 x 1 layer on a 300 x 300 image, steps 0, offset 0.5 *)
Definition ex_config (mins maxs : list Z) (ars : list float) : config :=
  {| min_sizes := mins; max_sizes := maxs; aspect_ratios := ars;
     variances := [half; half; half; half];
     flip := false; clip := false;
     step_w := F32.of_Z 0; step_h := F32.of_Z 0; offset := half;
     img_width := 300; img_height := 300;
     layer_width := 1; layer_height := 1 |}.

Definition ex_count : config := ex_config [30%Z] [60%Z] [F32.of_Z 2].


(** the same configuration with another [clip] attribute *)
Definition with_clip (b : bool) (c : config) : config :=
  {| min_sizes := min_sizes c; max_sizes := max_sizes c;
     aspect_ratios := aspect_ratios c; variances := variances c;
     flip := flip c; clip := b;
     step_w := step_w c; step_h := step_h c; offset := offset c;
     img_width := img_width c; img_height := img_height c;
     layer_width := layer_width c; layer_height := layer_height c |}.

(** a 2 x 3 layer on a 300 x 300 image, with clipping *)
Definition ex_grid : config :=
  {| min_sizes := [30%Z; 60%Z]; max_sizes := [60%Z; 120%Z];
     aspect_ratios := [F32.of_Z 2];
     variances := [half; half; half; half];
     flip := true; clip := true;
     step_w := F32.of_Z 0; step_h := F32.of_Z 0; offset := half;
     img_width := 300; img_height := 300;
     layer_width := 3; layer_height := 2 |}.

(** ** The values of the floating-point numbers *)

(** powers of two in Q *)
Definition pow2 (e : Z) : Q := Qpower 2 e.

(** the rationals with the two infinities *)
Inductive xq := XNinf | XFin (q : Q) | XPinf.

Definition xle (a b : xq) : Prop :=
  match a, b with
  | XNinf, _ => True
  | _, XPinf => True
  | XFin p, XFin q => (p <= q)%Q
  | _, _ => False
  end.

Definition xopp (a : xq) : xq :=
  match a with XNinf => XPinf | XFin q => XFin (- q) | XPinf => XNinf end.

(** the value of a finite float; 0 for the others *)
Definition Qval (x : spec_float) : Q :=
  match x with
  | S754_finite s m e => (inject_Z (cond_Zopp s (Zpos m)) * pow2 e)%Q
  | _ => 0%Q
  end.

Definition val (x : spec_float) : xq :=
  match x with
  | S754_infinity true => XNinf
  | S754_infinity false => XPinf
  | _ => XFin (Qval x)
  end.

Definition is_fin (x : spec_float) : bool :=
  match x with S754_zero _ | S754_finite _ _ _ => true | _ => false end.

Definition is_num (x : spec_float) : bool :=
  match x with S754_nan => false | _ => true end.

(** a number with the sign bit [s] *)
Definition has_sign (s : bool) (x : spec_float) : bool :=
  match x with
  | S754_nan => false
  | S754_zero s' | S754_infinity s' | S754_finite s' _ _ => eqb s s'
  end.

(** a finite [float] *)
Definition finite32 (x : float) : bool := is_fin x && F32.valid x.

(** the largest finite [float] *)
Definition max_float32 : float := S754_finite false 16777215 104.

(** the exact quotient of two positive floats *)
Definition quotient (mx : positive) (ex : Z) (my : positive) (ey : Z) : Q :=
  ((inject_Z (Zpos mx) * pow2 ex) / (inject_Z (Zpos my) * pow2 ey))%Q.

(** ** Rounding to nearest, ties to even *)

(** the position of [y] with respect to the integer [m] *)
Definition inbetween (y : Q) (m : Z) (l : location) : Prop :=
  match l with
  | loc_Exact => (y == inject_Z m)%Q
  | loc_Inexact Lt => (inject_Z m < y /\ y < inject_Z m + (1#2))%Q
  | loc_Inexact Eq => (y == inject_Z m + (1#2))%Q
  | loc_Inexact Gt => (inject_Z m + (1#2) < y /\ y < inject_Z m + 1)%Q
  end.

Definition shifted (y : Q) (mrs : shr_record) : Prop :=
  (0 <= shr_m mrs)%Z /\ inbetween y (shr_m mrs) (loc_of_shr_record mrs).

(** [n] is the integer nearest to [y], the even one when there are two *)
Definition nearest_even (y : Q) (n : Z) : Prop :=
  (inject_Z n - (1#2) <= y /\ y <= inject_Z n + (1#2))%Q
  /\ ((y == inject_Z n - (1#2) \/ y == inject_Z n + (1#2))%Q -> Z.even n = true).

Section Format.
Variables prec emax : Z.

(** the float made of the sign [s], the rounded integer [n] and the exponent [E] *)
Definition pack (s : bool) (n E : Z) : spec_float :=
  if (n =? 0)%Z then S754_zero s
  else if (n =? 2 ^ prec)%Z then
    if (E + 1 <=? emax - prec)%Z
    then S754_finite s (Z.to_pos (2 ^ (prec - 1))) (E + 1)
    else S754_infinity s
  else if (E <=? emax - prec)%Z then S754_finite s (Z.to_pos n) E
  else S754_infinity s.

(** the exponent of [pack s n E] *)
Definition pack_exp (n E : Z) : Z := if (n =? 2 ^ prec)%Z then (E + 1)%Z else E.

(** [n] at the exponent [E] is the rounding of the positive number [x] *)
Definition rnd_to (x : Q) (n E : Z) : Prop :=
  (emin prec emax <= E)%Z
  /\ (x < pow2 (E + prec))%Q
  /\ ((emin prec emax < E)%Z -> (pow2 (E + prec - 1) <= x)%Q)
  /\ nearest_even (x * pow2 (- E)) n.

(** [r] is the rounding of the rational [x] *)
Definition Rnd (x : Q) (r : spec_float) : Prop :=
  ((x == 0)%Q /\ exists s, r = S754_zero s)
  \/ ((0 < x)%Q /\ exists n E, rnd_to x n E /\ r = pack false n E)
  \/ ((x < 0)%Q /\ exists n E, rnd_to (- x) n E /\ r = pack true n E).

(** a conversion between two formats *)
Definition convert (x : spec_float) : spec_float :=
  match x with
  | S754_finite s m e => binary_round prec emax s m e
  | _ => x
  end.

End Format.

(** ** The ratios next to 1 *)

(** the two neighbours of the 25 floats that are within [eps] of 1 *)
Definition ratio_above : float := S754_finite false 8388617 (-23).
Definition ratio_below : float := S754_finite false 16777199 (-24).

(** [f2d r - 1.] as a function of [r] *)
Definition minus_one (r : float) : double := F64.sub (f2d r) (F64.of_Z 1).

(** the floats of exponent [e] with mantissa [a], ..., [a + n - 1] are all
    within [eps] of 1 *)
Definition all_within (e a : Z) (n : nat) : bool :=
  forallb (fun k => within_eps (S754_finite false (Z.to_pos (a + Z.of_nat k)) e)
                               (F32.of_Z 1))
          (seq 0 n).

(** * Binary floating-point numbers *)

(** ** Powers of two *)

Lemma pow2_pos e : (0 < pow2 e)%Q.
Proof. apply Qpower_0_lt. reflexivity. Qed.

Lemma pow2_add a b : (pow2 (a + b) == pow2 a * pow2 b)%Q.
Proof. apply Qpower_plus. discriminate. Qed.

Lemma pow2_succ a : (pow2 (a + 1) == 2 * pow2 a)%Q.
Proof. rewrite pow2_add. change (pow2 1) with 2%Q. ring. Qed.

Lemma pow2_le a b : (a <= b)%Z -> (pow2 a <= pow2 b)%Q.
Proof. intros H. apply Qpower_le_compat_l; [exact H|]. discriminate. Qed.

Lemma pow2_lt a b : (a < b)%Z -> (pow2 a < pow2 b)%Q.
Proof. intros H. apply Qpower_lt_compat_l; [exact H|]. reflexivity. Qed.

Lemma pow2_lt_inv a b : (pow2 a < pow2 b)%Q -> (a < b)%Z.
Proof.
  intros H. destruct (Z.lt_ge_cases a b) as [|Hge]; [done|].
  apply pow2_le in Hge. lra.
Qed.

Lemma pow2_Z e : (0 <= e)%Z -> (pow2 e == inject_Z (2 ^ e))%Q.
Proof. intros H. unfold pow2. rewrite Zpower_Qpower by done. reflexivity. Qed.

Lemma digits2_bounds p :
  (2 ^ (Zpos (digits2_pos p) - 1) <= Zpos p < 2 ^ Zpos (digits2_pos p))%Z.
Proof.
  induction p as [p IH|p IH|]; cbn [digits2_pos].
  - rewrite Pos2Z.inj_succ.
    replace (Z.succ (Zpos (digits2_pos p)) - 1)%Z
      with (Z.succ (Zpos (digits2_pos p) - 1)) by lia.
    rewrite !Z.pow_succ_r by lia. lia.
  - rewrite Pos2Z.inj_succ.
    replace (Z.succ (Zpos (digits2_pos p)) - 1)%Z
      with (Z.succ (Zpos (digits2_pos p) - 1)) by lia.
    rewrite !Z.pow_succ_r by lia. lia.
  - cbn. lia.
Qed.

(** ** Shifting a mantissa to the right *)

Lemma inbetween_ext y y' m l : (y == y')%Q -> inbetween y m l -> inbetween y' m l.
Proof. intros E. destruct l as [|[]]; cbn; rewrite E; done. Qed.

Lemma shifted_ext y y' mrs : (y == y')%Q -> shifted y mrs -> shifted y' mrs.
Proof. intros E [H1 H2]. split; [done|]. eapply inbetween_ext; eauto. Qed.

Lemma inject_xO p : (inject_Z (Zpos p~0) == 2 * inject_Z (Zpos p))%Q.
Proof. change (Zpos p~0) with (2 * Zpos p)%Z. rewrite inject_Z_mult. reflexivity. Qed.

Lemma inject_xI p : (inject_Z (Zpos p~1) == 2 * inject_Z (Zpos p) + 1)%Q.
Proof.
  change (Zpos p~1) with (2 * Zpos p + 1)%Z.
  rewrite inject_Z_plus, inject_Z_mult. reflexivity.
Qed.

Lemma shr_1_shifted y mrs : shifted y mrs -> shifted (y * (1#2)) (shr_1 mrs).
Proof.
  destruct mrs as [m r s]. unfold shifted. cbn [shr_m].
  intros [Hm H].
  destruct m as [|[p|p|]|p]; [| | | |lia];
    destruct r, s; cbn in H |- *;
    try rewrite inject_xO in H; try rewrite inject_xI in H;
    (split; [lia|]);
    change (inject_Z 0) with 0%Q in *; change (inject_Z 1) with 1%Q in *;
    lra.
Qed.

Lemma iter_pos_shifted k : forall y mrs,
  shifted y mrs -> shifted (y * pow2 (- Zpos k)) (SpecFloat.iter_pos shr_1 k mrs).
Proof.
  induction k as [k IH|k IH|]; intros y mrs H; cbn [SpecFloat.iter_pos].
  - apply shr_1_shifted, IH, IH in H. revert H. apply shifted_ext.
    rewrite <- !Qmult_assoc. apply Qmult_comp; [reflexivity|].
    change (1#2)%Q with (pow2 (-1)). rewrite <- !pow2_add.
    replace (-1 + (- Zpos k + - Zpos k))%Z with (- Zpos k~1)%Z by lia.
    reflexivity.
  - apply IH, IH in H. revert H. apply shifted_ext.
    rewrite <- !Qmult_assoc. apply Qmult_comp; [reflexivity|].
    rewrite <- !pow2_add.
    replace (- Zpos k + - Zpos k)%Z with (- Zpos k~0)%Z by lia.
    reflexivity.
  - apply shr_1_shifted in H. exact H.
Qed.

Lemma loc_of_shr_record_of_loc m l :
  loc_of_shr_record (shr_record_of_loc m l) = l.
Proof. destruct l as [|[]]; reflexivity. Qed.

Lemma shr_m_shr_record_of_loc m l : shr_m (shr_record_of_loc m l) = m.
Proof. destruct l as [|[]]; reflexivity. Qed.

(** [shr] by [n] places keeps the number that is located, at the exponent
    [e + n] *)
Lemma shr_shifted x mrs e n :
  shifted (x * pow2 (- e)) mrs ->
  shifted (x * pow2 (- snd (shr mrs e n))) (fst (shr mrs e n))
  /\ snd (shr mrs e n) = (e + Z.max n 0)%Z.
Proof.
  intros H. destruct n as [|k|k]; cbn [shr fst snd].
  - split; [done|lia].
  - split; [|lia]. apply (iter_pos_shifted k) in H. revert H.
    apply shifted_ext. rewrite <- Qmult_assoc, <- pow2_add.
    replace (- e + - Zpos k)%Z with (- (e + Zpos k))%Z by lia. reflexivity.
  - split; [done|lia].
Qed.

(** ** The rounding of [binary_round_aux] *)

Lemma rne_nearest y m l :
  inbetween y m l -> nearest_even y (round_nearest_even m l).
Proof.
  unfold nearest_even. destruct l as [|[]]; cbn.
  - intros H. split; [lra|]. intros [E|E]; lra.
  - intros H. destruct (Z.even m) eqn:Em.
    + split; [lra|]. done.
    + rewrite inject_Z_plus. change (inject_Z 1) with 1%Q.
      split; [lra|]. intros _.
      rewrite Z.add_1_r, Z.even_succ, <- Z.negb_even, Em. done.
  - intros H. split; [lra|]. intros [E|E]; lra.
  - intros H. rewrite inject_Z_plus. change (inject_Z 1) with 1%Q.
    split; [lra|]. intros [E|E]; lra.
Qed.

Lemma nearest_even_mono y1 y2 n1 n2 :
  nearest_even y1 n1 -> nearest_even y2 n2 -> (y1 <= y2)%Q -> (n1 <= n2)%Z.
Proof.
  intros [B1 E1] [B2 E2] Hy.
  destruct (Z.le_gt_cases n1 n2) as [|Hgt]; [done|exfalso].
  assert (H : (n2 + 1 <= n1)%Z) by lia.
  rewrite Zle_Qle, inject_Z_plus in H.
  change (inject_Z 1) with 1%Q in H.
  assert (Hy1 : (y1 == inject_Z n1 - (1#2))%Q) by lra.
  assert (Hy2 : (y2 == inject_Z n2 + (1#2))%Q) by lra.
  assert (Hn : (inject_Z n1 == inject_Z (n2 + 1))%Q).
  { rewrite inject_Z_plus. change (inject_Z 1) with 1%Q. lra. }
  assert (Hn' : n1 = (n2 + 1)%Z) by (unfold Qeq in Hn; cbn in Hn; lia).
  clear Hn; rename Hn' into Hn.
  specialize (E1 (or_introl Hy1)). specialize (E2 (or_intror Hy2)).
  rewrite Hn, Z.add_1_r, Z.even_succ, <- Z.negb_even, E2 in E1. done.
Qed.

Lemma nearest_even_ext y y' n : (y == y')%Q -> nearest_even y n -> nearest_even y' n.
Proof. intros E. unfold nearest_even. rewrite E. done. Qed.

Lemma pow2_inv e : (pow2 (- e) * pow2 e == 1)%Q.
Proof. rewrite <- pow2_add. replace (- e + e)%Z with 0%Z by lia. reflexivity. Qed.

Lemma scale_lt x d e : (x * pow2 (- e) < pow2 d)%Q <-> (x < pow2 (d + e))%Q.
Proof.
  rewrite pow2_add, <- (Qmult_lt_r _ _ (pow2 e)) by apply pow2_pos.
  rewrite <- Qmult_assoc, pow2_inv, Qmult_1_r. reflexivity.
Qed.

Lemma scale_le x d e : (pow2 d <= x * pow2 (- e))%Q <-> (pow2 (d + e) <= x)%Q.
Proof.
  rewrite pow2_add, <- (Qmult_le_r _ _ (pow2 e)) by apply pow2_pos.
  rewrite <- Qmult_assoc, pow2_inv, Qmult_1_r. reflexivity.
Qed.

Lemma inbetween_bounds y m l :
  inbetween y m l -> (inject_Z m <= y /\ y < inject_Z m + 1)%Q.
Proof. destruct l as [|[]]; cbn; lra. Qed.

Lemma nearest_even_upper y n k :
  nearest_even y n -> (y < inject_Z k)%Q -> (n <= k)%Z.
Proof.
  intros [[B _] _] Hy. apply Z.nlt_ge. intros Hlt.
  assert (H : (k + 1 <= n)%Z) by lia.
  rewrite Zle_Qle, inject_Z_plus in H. change (inject_Z 1) with 1%Q in H. lra.
Qed.

Lemma nearest_even_lower y n k :
  nearest_even y n -> (inject_Z k <= y)%Q -> (k <= n)%Z.
Proof.
  intros [[_ B] _] Hy. apply Z.nlt_ge. intros Hlt.
  assert (H : (n + 1 <= k)%Z) by lia.
  rewrite Zle_Qle, inject_Z_plus in H. change (inject_Z 1) with 1%Q in H. lra.
Qed.

Section Rounding.
Variables prec emax : Z.
Hypothesis Hprec : (0 < prec)%Z.

Local Abbreviation emin := (emin prec emax).
Local Abbreviation fexp := (fexp prec emax).
Local Abbreviation pack := (pack prec emax).
Local Abbreviation rnd_to := (rnd_to prec emax).

Lemma fexp_ge_emin e : (emin <= fexp e)%Z.
Proof. unfold SpecFloat.fexp. lia. Qed.

Lemma Zdigits2_bounds m :
  (0 < m)%Z -> (2 ^ (Zdigits2 m - 1) <= m < 2 ^ Zdigits2 m)%Z.
Proof. destruct m as [|p|p]; [lia| |lia]. intros _. apply digits2_bounds. Qed.

Lemma Zdigits2_pos m : (0 < m)%Z -> (0 < Zdigits2 m)%Z.
Proof. destruct m; cbn; lia. Qed.

Lemma Zdigits2_le m k : (0 < m < 2 ^ k)%Z -> (Zdigits2 m <= k)%Z.
Proof.
  intros [H0 Hk]. pose proof (Zdigits2_bounds m H0) as [Hl _].
  pose proof (Zdigits2_pos m H0).
  assert (0 <= k)%Z. { destruct k; try lia. rewrite Z.pow_neg_r in Hk; lia. }
  apply Z.nlt_ge. intros Hlt.
  assert (2 ^ k <= 2 ^ (Zdigits2 m - 1))%Z by (apply Z.pow_le_mono_r; lia).
  lia.
Qed.

Lemma Zdigits2_ge m k : (2 ^ k <= m)%Z -> (0 <= k)%Z -> (k + 1 <= Zdigits2 m)%Z.
Proof.
  intros Hk H0. assert (0 < m)%Z by (pose proof (Z.pow_pos_nonneg 2 k); lia).
  pose proof (Zdigits2_bounds m H) as [_ Hu].
  pose proof (Zdigits2_pos m H).
  apply Z.nlt_ge. intros Hlt.
  assert (2 ^ Zdigits2 m <= 2 ^ k)%Z by (apply Z.pow_le_mono_r; lia).
  lia.
Qed.

(** the second normalisation and the overflow test of [binary_round_aux] *)
Lemma tail_pack s n E :
  (0 <= n <= 2 ^ prec)%Z -> (emin <= E)%Z ->
  (let '(mrs, e) := shr_fexp prec emax n E loc_Exact in
   match shr_m mrs with
   | Z0 => S754_zero s
   | Zpos m => if (e <=? emax - prec)%Z then S754_finite s m e else S754_infinity s
   | Zneg _ => S754_nan
   end) = pack s n E.
Proof.
  intros Hn HE. unfold shr_fexp, pack. cbn [shr_record_of_loc].
  destruct (Z.eqb_spec n 0) as [->|Hn0].
  - cbn [Zdigits2]. unfold SpecFloat.fexp.
    destruct (Z.max (0 + E - prec) emin - E)%Z eqn:Ek; try lia; done.
  - destruct (Z.eqb_spec n (2 ^ prec)) as [->|Hnp].
    + assert (Hd : Zdigits2 (2 ^ prec) = (prec + 1)%Z).
      { pose proof (Zdigits2_ge (2 ^ prec) prec).
        pose proof (Zdigits2_le (2 ^ prec) (prec + 1)).
        rewrite Z.pow_add_r in * by lia. lia. }
      rewrite Hd. unfold SpecFloat.fexp.
      replace (Z.max (prec + 1 + E - prec) emin - E)%Z with 1%Z by lia.
      cbn [shr SpecFloat.iter_pos].
      replace (2 ^ prec)%Z with (Zpos (Z.to_pos (2 ^ (prec - 1)))~0).
      * cbn. done.
      * rewrite Pos2Z.inj_xO, Z2Pos.id by (apply Z.pow_pos_nonneg; lia).
        rewrite <- Z.pow_succ_r by lia. f_equal. lia.
    + assert (Hd : (Zdigits2 n <= prec)%Z) by (apply Zdigits2_le; lia).
      unfold SpecFloat.fexp.
      destruct (Z.max (Zdigits2 n + E - prec) emin - E)%Z eqn:Ek; try lia.
      * cbn. destruct n; try lia. done.
      * cbn. destruct n; try lia. done.
Qed.

Lemma bra_correct s m e l x :
  (0 <= m)%Z -> (e <= fexp (Zdigits2 m + e))%Z ->
  inbetween (x * pow2 (- e)) m l -> (0 < x)%Q ->
  exists n E, rnd_to x n E /\ binary_round_aux prec emax s m e l = pack s n E.
Proof.
  intros Hm Hpre Hin Hx. unfold binary_round_aux, shr_fexp at 1.
  assert (Hs : shifted (x * pow2 (- e)) (shr_record_of_loc m l)).
  { split; rewrite ?shr_m_shr_record_of_loc, ?loc_of_shr_record_of_loc; done. }
  apply (shr_shifted _ _ _ (fexp (Zdigits2 m + e) - e)) in Hs.
  destruct (shr (shr_record_of_loc m l) e (fexp (Zdigits2 m + e) - e))
    as [mrs E]. cbn [fst snd] in Hs. destruct Hs as [[Hm' Hin'] HE].
  assert (HE' : E = fexp (Zdigits2 m + e)) by lia. clear HE.
  set (n := round_nearest_even (shr_m mrs) (loc_of_shr_record mrs)).
  assert (Hn : nearest_even (x * pow2 (- E)) n) by (apply rne_nearest; done).
  apply inbetween_bounds in Hin as [Hlo Hhi].
  assert (Hd0 : (0 <= Zdigits2 m)%Z) by (destruct m; cbn; lia).
  assert (Hup : (x < pow2 (E + prec))%Q).
  { apply (Qlt_le_trans _ (pow2 (Zdigits2 m + e))).
    - apply scale_lt. eapply Qlt_le_trans; [exact Hhi|].
      rewrite pow2_Z by done.
      change 1%Q with (inject_Z 1). rewrite <- inject_Z_plus, <- Zle_Qle.
      destruct (Z.eq_dec m 0%Z) as [->|]; [cbn; lia|].
      pose proof (Zdigits2_bounds m). lia.
    - apply pow2_le. unfold SpecFloat.fexp in HE'. lia. }
  assert (Hlow : (emin < E)%Z -> (pow2 (E + prec - 1) <= x)%Q).
  { intros Hgt. unfold SpecFloat.fexp in HE', Hpre.
    assert (Hm0 : (0 < m)%Z).
    { destruct (Z.eq_dec m 0%Z) as [->|]; [cbn in *|]; lia. }
    replace (E + prec - 1)%Z with (Zdigits2 m - 1 + e)%Z by lia.
    apply scale_le. eapply Qle_trans; [|exact Hlo].
    pose proof (Zdigits2_pos m Hm0).
    rewrite pow2_Z by lia. rewrite <- Zle_Qle.
    apply Zdigits2_bounds. done. }
  assert (HEmin : (emin <= E)%Z) by (rewrite HE'; apply fexp_ge_emin).
  exists n, E. split; [done|].
  apply tail_pack; [|done]. split.
  - apply (nearest_even_lower _ _ 0%Z Hn). change (inject_Z 0) with 0%Q.
    apply Qlt_le_weak, Qmult_lt_0_compat; [done|apply pow2_pos].
  - apply (nearest_even_upper _ _ _ Hn). rewrite <- pow2_Z by lia.
    apply scale_lt. replace (prec + E)%Z with (E + prec)%Z by lia. done.
Qed.
End Rounding.

(** ** Extended values *)

Lemma xle_refl a : xle a a.
Proof. destruct a; cbn; try done. apply Qle_refl. Qed.

Lemma xle_trans a b c : xle a b -> xle b c -> xle a c.
Proof. destruct a, b, c; cbn; try done. apply Qle_trans. Qed.

Lemma xle_opp a b : xle a b -> xle (xopp b) (xopp a).
Proof. destruct a, b; cbn; try done. intros. lra. Qed.

Section Rounding.
Variables prec emax : Z.
Hypothesis Hprec : (0 < prec)%Z.

Local Abbreviation emin := (emin prec emax).
Local Abbreviation fexp := (fexp prec emax).
Local Abbreviation pack := (pack prec emax).
Local Abbreviation rnd_to := (rnd_to prec emax).
Local Abbreviation Rnd := (Rnd prec emax).
Local Abbreviation pack_exp := (pack_exp prec).

Lemma rnd_to_bounds x n E :
  (0 < x)%Q -> rnd_to x n E ->
  (0 <= n <= 2 ^ prec)%Z /\ ((emin < E)%Z -> (2 ^ (prec - 1) <= n)%Z).
Proof.
  intros Hx (HE & Hup & Hlow & Hn). repeat split.
  - apply (nearest_even_lower _ _ 0%Z Hn). change (inject_Z 0) with 0%Q.
    apply Qlt_le_weak, Qmult_lt_0_compat; [done|apply pow2_pos].
  - apply (nearest_even_upper _ _ _ Hn). rewrite <- pow2_Z by lia.
    apply scale_lt. replace (prec + E)%Z with (E + prec)%Z by lia. done.
  - intros Hgt. apply (nearest_even_lower _ _ _ Hn).
    rewrite <- pow2_Z by lia. apply scale_le.
    replace (prec - 1 + E)%Z with (E + prec - 1)%Z by lia. auto.
Qed.

Lemma pack_cases s n E :
  (0 <= n <= 2 ^ prec)%Z ->
  (n = 0%Z /\ pack s n E = S754_zero s)
  \/ ((0 < n)%Z /\ (emax - prec < pack_exp n E)%Z /\ pack s n E = S754_infinity s)
  \/ ((0 < n)%Z /\ (pack_exp n E <= emax - prec)%Z
      /\ exists m, pack s n E = S754_finite s m (pack_exp n E)
         /\ (inject_Z (Zpos m) * pow2 (pack_exp n E) == inject_Z n * pow2 E)%Q
         /\ (Zpos m = if (n =? 2 ^ prec)%Z then 2 ^ (prec - 1) else n)%Z).
Proof.
  intros Hn. unfold pack, pack_exp.
  destruct (Z.eqb_spec n 0) as [->|Hn0]; [by left|right].
  destruct (Z.eqb_spec n (2 ^ prec)) as [->|Hnp].
  - assert (Hp' : (0 < 2 ^ prec)%Z) by (apply Z.pow_pos_nonneg; lia).
    destruct (Z.leb_spec (E + 1) (emax - prec));
      [right|left; repeat split; solve [lia|done]].
    repeat split; try lia. eexists; split; [done|].
    assert (Hp : (0 < 2 ^ (prec - 1))%Z) by (apply Z.pow_pos_nonneg; lia).
    rewrite Z2Pos.id by done. split; [|done].
    rewrite pow2_succ, <- !pow2_Z by lia.
    replace prec with (prec - 1 + 1)%Z at 2 by lia. rewrite pow2_succ. ring.
  - destruct (Z.leb_spec E (emax - prec));
      [right|left; repeat split; solve [lia|done]].
    repeat split; try lia. eexists; split; [done|].
    rewrite Z2Pos.id by lia. split; [reflexivity|done].
Qed.

Lemma Zdigits2_pow2 k : (0 <= k)%Z -> Zdigits2 (2 ^ k) = (k + 1)%Z.
Proof.
  intros Hk. pose proof (Zdigits2_ge (2 ^ k) k).
  pose proof (Zdigits2_le (2 ^ k) (k + 1)).
  assert (0 < 2 ^ k)%Z by (apply Z.pow_pos_nonneg; lia).
  rewrite Z.pow_add_r in * by lia. lia.
Qed.

Lemma pack_valid s x n E :
  (0 < x)%Q -> rnd_to x n E -> valid_binary prec emax (pack s n E) = true.
Proof.
  intros Hx Hr. pose proof (rnd_to_bounds x n E Hx Hr) as [Hn Hlow].
  destruct Hr as (HE & _).
  destruct (pack_cases s n E Hn)
    as [[_ ->]|[(_ & _ & ->)|(Hn0 & HX & m & -> & _ & Hm)]]; [done..|].
  cbn [valid_binary]. unfold bounded, canonical_mantissa.
  apply andb_true_intro. split; [|by apply Z.leb_le].
  apply Z.eqb_eq. change (Zpos (digits2_pos m)) with (Zdigits2 (Zpos m)).
  rewrite Hm. unfold pack_exp, SpecFloat.fexp.
  destruct (Z.eqb_spec n (2 ^ prec)) as [->|Hnp].
  - rewrite Zdigits2_pow2 by lia. lia.
  - assert (Zdigits2 n <= prec)%Z by (apply Zdigits2_le; lia).
    destruct (Z.eq_dec E emin) as [->|]; [lia|].
    assert (prec - 1 + 1 <= Zdigits2 n)%Z by (apply Zdigits2_ge; lia).
    lia.
Qed.

Lemma rnd_to_mono x1 x2 n1 n2 E1 E2 :
  (0 < x1)%Q -> (x1 <= x2)%Q -> rnd_to x1 n1 E1 -> rnd_to x2 n2 E2 ->
  (inject_Z n1 * pow2 E1 <= inject_Z n2 * pow2 E2)%Q
  /\ (pack_exp n1 E1 <= pack_exp n2 E2)%Z.
Proof.
  intros Hx1 Hx Hr1 Hr2.
  assert (Hx2 : (0 < x2)%Q) by lra.
  pose proof (rnd_to_bounds _ _ _ Hx1 Hr1) as [Hn1 Hlow1].
  pose proof (rnd_to_bounds _ _ _ Hx2 Hr2) as [Hn2 Hlow2].
  destruct Hr1 as (HE1 & Hup1 & Hlo1 & Hne1).
  destruct Hr2 as (HE2 & Hup2 & Hlo2 & Hne2).
  assert (HE : (E1 <= E2)%Z).
  { apply Z.nlt_ge. intros Hlt.
    assert (H : (pow2 (E1 + prec - 1) < pow2 (E2 + prec))%Q).
    { eapply Qle_lt_trans; [apply Hlo1; lia|].
      eapply Qle_lt_trans; [exact Hx|exact Hup2]. }
    apply pow2_lt_inv in H. lia. }
  destruct (Z.eq_dec E1 E2) as [<-|Hne].
  - assert (Hn : (n1 <= n2)%Z).
    { apply (nearest_even_mono _ _ _ _ Hne1 Hne2).
      apply Qmult_le_compat_r; [done|apply Qlt_le_weak, pow2_pos]. }
    split.
    + apply Qmult_le_compat_r; [|apply Qlt_le_weak, pow2_pos].
      by rewrite <- Zle_Qle.
    + unfold pack_exp.
      destruct (Z.eqb_spec n1 (2 ^ prec)), (Z.eqb_spec n2 (2 ^ prec)); lia.
  - split.
    + apply (Qle_trans _ (pow2 (prec + E1))).
      * rewrite pow2_add.
        apply Qmult_le_compat_r; [|apply Qlt_le_weak, pow2_pos].
        rewrite pow2_Z by lia. rewrite <- Zle_Qle. lia.
      * apply (Qle_trans _ (pow2 (prec - 1 + E2))); [apply pow2_le; lia|].
        rewrite pow2_add.
        apply Qmult_le_compat_r; [|apply Qlt_le_weak, pow2_pos].
        rewrite pow2_Z by lia. rewrite <- Zle_Qle. apply Hlow2. lia.
    + unfold pack_exp.
      destruct (Z.eqb_spec n1 (2 ^ prec)), (Z.eqb_spec n2 (2 ^ prec)); lia.
Qed.

Lemma pack_mono x1 x2 n1 n2 E1 E2 :
  (0 < x1)%Q -> (x1 <= x2)%Q -> rnd_to x1 n1 E1 -> rnd_to x2 n2 E2 ->
  xle (val (pack false n1 E1)) (val (pack false n2 E2)).
Proof.
  intros Hx1 Hx Hr1 Hr2.
  assert (Hx2 : (0 < x2)%Q) by lra.
  pose proof (rnd_to_bounds _ _ _ Hx1 Hr1) as [Hn1 _].
  pose proof (rnd_to_bounds _ _ _ Hx2 Hr2) as [Hn2 _].
  destruct (rnd_to_mono _ _ _ _ _ _ Hx1 Hx Hr1 Hr2) as [HV HX].
  pose proof (pow2_pos E1). pose proof (pow2_pos E2).
  assert (Hpos : forall n E, (0 < n)%Z -> (0 < inject_Z n * pow2 E)%Q).
  { intros n E Hn. apply Qmult_lt_0_compat; [|apply pow2_pos].
    change 0%Q with (inject_Z 0). by rewrite <- Zlt_Qlt. }
  destruct (pack_cases false n1 E1 Hn1)
    as [[-> ->]|[(Hp1 & Ho1 & ->)|(Hp1 & Ho1 & m1 & -> & Hv1 & _)]];
  destruct (pack_cases false n2 E2 Hn2)
    as [[-> ->]|[(Hp2 & Ho2 & ->)|(Hp2 & Ho2 & m2 & -> & Hv2 & _)]];
    cbn [val Qval xle cond_Zopp]; try done; try lia.
  - rewrite Hv2. apply Qlt_le_weak, Hpos. done.
  - specialize (Hpos n1 E1 Hp1). change (inject_Z 0) with 0%Q in HV. lra.
  - specialize (Hpos n1 E1 Hp1). change (inject_Z 0) with 0%Q in HV. lra.
  - rewrite Hv1, Hv2. done.
Qed.
End Rounding.

(** ** Rounding is monotone *)

Lemma inject_Zneg m : inject_Z (Zneg m) = (- inject_Z (Zpos m))%Q.
Proof. reflexivity. Qed.

Lemma mant_pos m e : (0 < inject_Z (Zpos m) * pow2 e)%Q.
Proof. apply Qmult_lt_0_compat; [reflexivity|apply pow2_pos]. Qed.

Lemma val_opp_le a b : xle (val a) (val b) -> xle (val (SFopp b)) (val (SFopp a)).
Proof.
  destruct a as [sa|[]| |[] ma ea], b as [sb|[]| |[] mb eb];
    cbn [val Qval SFopp xle negb cond_Zopp]; try done;
    rewrite ?inject_Z_opp; intros;
    try pose proof (mant_pos ma ea); try pose proof (mant_pos mb eb); lra.
Qed.

Section Rounding.
Variables prec emax : Z.
Hypothesis Hprec : (0 < prec)%Z.

Local Abbreviation pack := (pack prec emax).
Local Abbreviation rnd_to := (rnd_to prec emax).
Local Abbreviation Rnd := (Rnd prec emax).

Lemma pack_opp n E : pack true n E = SFopp (pack false n E).
Proof. unfold pack. repeat case_match; done. Qed.

Lemma pack_nonneg x n E :
  (0 < x)%Q -> rnd_to x n E -> xle (XFin 0) (val (pack false n E)).
Proof.
  intros Hx Hr. pose proof (rnd_to_bounds prec emax Hprec _ _ _ Hx Hr) as [Hn _].
  destruct (pack_cases prec emax Hprec false n E Hn)
    as [[_ ->]|[(_ & _ & ->)|(Hn0 & _ & m & -> & _ & _)]];
    cbn [val Qval xle cond_Zopp]; try done.
  apply Qlt_le_weak, Qmult_lt_0_compat; [|apply pow2_pos].
  change 0%Q with (inject_Z 0). by rewrite <- Zlt_Qlt.
Qed.

Lemma pack_nonpos x n E :
  (0 < x)%Q -> rnd_to x n E -> xle (val (pack true n E)) (XFin 0).
Proof.
  intros Hx Hr. rewrite pack_opp.
  apply (val_opp_le (S754_zero true)), (pack_nonneg x); done.
Qed.

(** rounding is monotone *)
Lemma Rnd_mono x1 x2 r1 r2 :
  Rnd x1 r1 -> Rnd x2 r2 -> (x1 <= x2)%Q -> xle (val r1) (val r2).
Proof.
  intros [[Hx1 [s1 ->]]|[[Hx1 (n1 & E1 & Hr1 & ->)]|[Hx1 (n1 & E1 & Hr1 & ->)]]]
         [[Hx2 [s2 ->]]|[[Hx2 (n2 & E2 & Hr2 & ->)]|[Hx2 (n2 & E2 & Hr2 & ->)]]]
         Hx; try lra.
  - cbn [val Qval xle]. apply Qle_refl.
  - apply (pack_nonneg x2); done.
  - apply (pack_mono prec emax Hprec x1 x2); done.
  - apply (pack_nonpos (- x1)); [lra|done].
  - apply (xle_trans _ (XFin 0)).
    + apply (pack_nonpos (- x1)); [lra|done].
    + apply (pack_nonneg x2); done.
  - rewrite !pack_opp. apply val_opp_le.
    apply (pack_mono prec emax Hprec (- x2) (- x1)); [lra|lra|done..].
Qed.

Lemma Rnd_valid x r :
  Rnd x r -> valid_binary prec emax r = true /\ is_num r = true.
Proof.
  intros [[Hx [s ->]]|[[Hx (n & E & Hr & ->)]|[Hx (n & E & Hr & ->)]]].
  - done.
  - split; [apply (pack_valid prec emax Hprec _ x); done|].
    unfold pack. repeat case_match; done.
  - split; [apply (pack_valid prec emax Hprec _ (- x)); [lra|done]|].
    unfold pack. repeat case_match; done.
Qed.

(** the sign of a rounded number *)
Lemma Rnd_pos x r : Rnd x r -> (0 <= x)%Q -> xle (XFin 0) (val r).
Proof.
  intros H Hx. apply (Rnd_mono 0 x (S754_zero false)); [|done..].
  left. split; [reflexivity|eauto].
Qed.

Lemma Rnd_neg x r : Rnd x r -> (x <= 0)%Q -> xle (val r) (XFin 0).
Proof.
  intros H Hx. apply (Rnd_mono x 0 r (S754_zero false)); [done| |done].
  left. split; [reflexivity|eauto].
Qed.
End Rounding.

(** ** Comparison *)

Section Compare.
Variables prec emax : Z.
Hypothesis Hprec : (0 < prec)%Z.

Local Abbreviation emin := (emin prec emax).
Local Abbreviation valid := (valid_binary prec emax).

Lemma bounded_digits m e :
  bounded prec emax m e = true ->
  (Zdigits2 (Zpos m) <= prec)%Z /\ (emin <= e)%Z
  /\ ((emin < e)%Z -> Zdigits2 (Zpos m) = prec).
Proof.
  unfold bounded, canonical_mantissa, fexp. intros H.
  apply andb_prop in H as [H _]. apply Z.eqb_eq in H.
  change (Zpos (digits2_pos m)) with (Zdigits2 (Zpos m)) in H. lia.
Qed.

Lemma canonical_lt m1 e1 m2 e2 :
  bounded prec emax m1 e1 = true -> bounded prec emax m2 e2 = true ->
  (e1 < e2)%Z ->
  (inject_Z (Zpos m1) * pow2 e1 < inject_Z (Zpos m2) * pow2 e2)%Q.
Proof.
  intros H1 H2 He.
  apply bounded_digits in H1 as (Hd1 & Hm1 & _).
  apply bounded_digits in H2 as (_ & _ & Hd2). specialize (Hd2 ltac:(lia)).
  pose proof (Zdigits2_bounds (Zpos m1) ltac:(lia)) as [_ Hu].
  pose proof (Zdigits2_bounds (Zpos m2) ltac:(lia)) as [Hl _].
  rewrite Hd2 in Hl.
  assert (Hu' : (Zpos m1 < 2 ^ prec)%Z).
  { eapply Z.lt_le_trans; [exact Hu|]. apply Z.pow_le_mono_r; lia. }
  apply (Qlt_le_trans _ (pow2 (prec + e1))).
  - rewrite pow2_add. apply Qmult_lt_compat_r; [apply pow2_pos|].
    rewrite pow2_Z by lia. by rewrite <- Zlt_Qlt.
  - apply (Qle_trans _ (pow2 (prec - 1 + e2))); [apply pow2_le; lia|].
    rewrite pow2_add. apply Qmult_le_compat_r; [|apply Qlt_le_weak, pow2_pos].
    rewrite pow2_Z by lia. by rewrite <- Zle_Qle.
Qed.

Lemma mag_compare m1 e1 m2 e2 :
  bounded prec emax m1 e1 = true -> bounded prec emax m2 e2 = true ->
  match (match Z.compare e1 e2 with
         | Lt => Lt | Gt => Gt | Eq => Pos.compare_cont Eq m1 m2 end) with
  | Lt => (inject_Z (Zpos m1) * pow2 e1 < inject_Z (Zpos m2) * pow2 e2)%Q
  | Eq => (inject_Z (Zpos m1) * pow2 e1 == inject_Z (Zpos m2) * pow2 e2)%Q
  | Gt => (inject_Z (Zpos m2) * pow2 e2 < inject_Z (Zpos m1) * pow2 e1)%Q
  end.
Proof.
  intros H1 H2. destruct (Z.compare_spec e1 e2) as [->|He|He].
  - change (Pos.compare_cont Eq m1 m2) with (m1 ?= m2)%positive.
    destruct (Pos.compare_spec m1 m2) as [->|Hm|Hm].
    + reflexivity.
    + apply Qmult_lt_compat_r; [apply pow2_pos|]. rewrite <- Zlt_Qlt. lia.
    + apply Qmult_lt_compat_r; [apply pow2_pos|]. rewrite <- Zlt_Qlt. lia.
  - by apply canonical_lt.
  - by apply canonical_lt.
Qed.

(** on valid numbers [SFcompare] is the comparison of the values *)
Lemma SFcompare_val x y :
  valid x = true -> valid y = true -> is_num x = true -> is_num y = true ->
  match SFcompare x y with
  | Some Lt => ~ xle (val y) (val x)
  | Some Eq => xle (val x) (val y) /\ xle (val y) (val x)
  | Some Gt => ~ xle (val x) (val y)
  | None => False
  end.
Proof.
  intros Vx Vy Nx Ny.
  destruct x as [sx|[]| |[] mx ex], y as [sy|[]| |[] my ey]; try done;
    cbn [SFcompare val Qval xle cond_Zopp];
    try (split; apply Qle_refl); try tauto;
    rewrite ?inject_Z_opp;
    try pose proof (mant_pos mx ex); try pose proof (mant_pos my ey);
    try lra.
  all: cbn [valid_binary] in Vx, Vy;
    pose proof (mag_compare mx ex my ey Vx Vy) as Hc;
    destruct (ex ?= ey)%Z; [destruct (Pos.compare_cont Eq mx my)|..];
    cbn [CompOpp]; lra.
Qed.

Lemma xle_total a b : xle a b \/ xle b a.
Proof.
  destruct a as [|p|], b as [|q|]; cbn; auto.
  destruct (Qlt_le_dec p q); [left; lra|right; done].
Qed.

Lemma SFleb_val x y :
  valid x = true -> valid y = true -> is_num x = true -> is_num y = true ->
  SFleb x y = true <-> xle (val x) (val y).
Proof.
  intros Vx Vy Nx Ny. pose proof (SFcompare_val x y Vx Vy Nx Ny) as H.
  unfold SFleb. destruct (SFcompare x y) as [[]|]; [| | |done].
  - tauto.
  - destruct (xle_total (val x) (val y)); tauto.
  - split; [done|tauto].
Qed.

Lemma SFltb_val x y :
  valid x = true -> valid y = true -> is_num x = true -> is_num y = true ->
  SFltb x y = false <-> xle (val y) (val x).
Proof.
  intros Vx Vy Nx Ny. pose proof (SFcompare_val x y Vx Vy Nx Ny) as H.
  unfold SFltb. destruct (SFcompare x y) as [[]|]; [| | |done].
  - tauto.
  - split; [done|tauto].
  - destruct (xle_total (val y) (val x)); tauto.
Qed.
End Compare.

(** ** Normalisation *)

Lemma iter_xO m d : Zpos (Pos.iter xO m d) = (Zpos m * 2 ^ Zpos d)%Z.
Proof.
  induction d as [|d IH] using Pos.peano_ind.
  - cbn. lia.
  - rewrite Pos.iter_succ, Pos2Z.inj_xO, IH, Pos2Z.inj_succ, Z.pow_succ_r by lia.
    lia.
Qed.

Lemma shl_align_fst m e e' :
  (e' <= e)%Z -> Zpos (fst (shl_align m e e')) = (Zpos m * 2 ^ (e - e'))%Z.
Proof.
  intros H. unfold shl_align.
  destruct (e' - e)%Z as [|d|d] eqn:Ed; cbn [fst]; try lia.
  - replace (e - e')%Z with 0%Z by lia. lia.
  - rewrite iter_xO. f_equal. f_equal. lia.
Qed.

Lemma shl_align_snd m e e' :
  snd (shl_align m e e') = Z.min e e'.
Proof.
  unfold shl_align. destruct (e' - e)%Z as [|d|d] eqn:Ed; cbn [snd]; lia.
Qed.

Lemma Zdigits2_shift m k :
  (0 < m)%Z -> (0 <= k)%Z -> Zdigits2 (m * 2 ^ k) = (Zdigits2 m + k)%Z.
Proof.
  intros Hm Hk. pose proof (Zdigits2_bounds m Hm) as [Hl Hu].
  pose proof (Zdigits2_pos m Hm).
  assert (H2 : (0 < 2 ^ k)%Z) by (apply Z.pow_pos_nonneg; lia).
  pose proof (Zdigits2_le (m * 2 ^ k) (Zdigits2 m + k)) as H1.
  pose proof (Zdigits2_ge (m * 2 ^ k) (Zdigits2 m - 1 + k)) as H3.
  rewrite Z.pow_add_r in H1, H3 by lia.
  assert (2 ^ (Zdigits2 m - 1) * 2 ^ k <= m * 2 ^ k)%Z by nia.
  assert (0 < m * 2 ^ k < 2 ^ Zdigits2 m * 2 ^ k)%Z by nia.
  lia.
Qed.

Lemma pow2_mul_Z m e k :
  (0 <= k)%Z -> (inject_Z (m * 2 ^ k) * pow2 (e - k) == inject_Z m * pow2 e)%Q.
Proof.
  intros Hk. rewrite inject_Z_mult, <- pow2_Z by done.
  rewrite <- Qmult_assoc, <- pow2_add.
  replace (k + (e - k))%Z with e by lia. reflexivity.
Qed.

Lemma unscale x e : (x * pow2 e * pow2 (- e) == x)%Q.
Proof.
  rewrite <- Qmult_assoc, <- pow2_add.
  replace (e + - e)%Z with 0%Z by lia. change (pow2 0) with 1%Q. ring.
Qed.

Lemma scaled_shift m e t :
  (t <= e)%Z ->
  (inject_Z m * pow2 e * pow2 (- t) == inject_Z (m * 2 ^ (e - t)))%Q.
Proof.
  intros H. rewrite inject_Z_mult, <- pow2_Z by lia.
  rewrite <- Qmult_assoc, <- pow2_add.
  replace (e + - t)%Z with (e - t)%Z by lia. reflexivity.
Qed.

Section Ops.
Variables prec emax : Z.
Hypothesis Hprec : (0 < prec)%Z.

Local Abbreviation emin := (emin prec emax).
Local Abbreviation fexp := (fexp prec emax).
Local Abbreviation valid := (valid_binary prec emax).
Local Abbreviation pack := (pack prec emax).
Local Abbreviation rnd_to := (rnd_to prec emax).
Local Abbreviation Rnd := (Rnd prec emax).

Lemma rnd_to_ext x x' n E : (x == x')%Q -> rnd_to x n E -> rnd_to x' n E.
Proof.
  intros Hx. unfold rnd_to, nearest_even. rewrite Hx. done.
Qed.

Lemma Rnd_ext x x' r : (x == x')%Q -> Rnd x r -> Rnd x' r.
Proof.
  intros Hx [[H0 Hr]|[[H0 (n & E & Hr & ->)]|[H0 (n & E & Hr & ->)]]].
  - left. split; [by rewrite <- Hx|done].
  - right; left. split; [by rewrite <- Hx|].
    exists n, E. split; [|done]. by apply (rnd_to_ext x).
  - right; right. split; [by rewrite <- Hx|].
    exists n, E. split; [|done]. apply (rnd_to_ext (- x)); [|done].
    by rewrite Hx.
Qed.

(** a located positive number, rounded with a sign *)
Lemma bra_Rnd (s : bool) m e l x :
  (0 <= m)%Z -> (e <= fexp (Zdigits2 m + e))%Z ->
  inbetween (x * pow2 (- e)) m l -> (0 < x)%Q ->
  Rnd (if s then (- x)%Q else x) (binary_round_aux prec emax s m e l).
Proof.
  intros Hm Hpre Hin Hx.
  destruct (bra_correct prec emax Hprec s m e l x Hm Hpre Hin Hx)
    as (n & E & Hr & ->).
  destruct s.
  - right; right. split; [lra|]. exists n, E. split; [|done].
    apply (rnd_to_ext x); [|done]. ring.
  - right; left. split; [done|]. exists n, E. done.
Qed.

Lemma binary_round_Rnd s m e :
  Rnd (Qval (S754_finite s m e)) (binary_round prec emax s m e).
Proof.
  unfold binary_round.
  set (t := fexp (Zpos (digits2_pos m) + e)).
  change (Zpos (digits2_pos m)) with (Zdigits2 (Zpos m)) in t.
  pose proof (shl_align_snd m e t) as Hsnd.
  destruct (shl_align m e t) as [mz ez] eqn:Hsh. cbn [snd] in Hsnd.
  assert (Hx : (0 < inject_Z (Zpos m) * pow2 e)%Q) by apply mant_pos.
  apply (Rnd_ext (if s then (- (inject_Z (Zpos m) * pow2 e))%Q
                  else (inject_Z (Zpos m) * pow2 e)%Q)).
  { destruct s; cbn [Qval cond_Zopp]; rewrite ?inject_Z_opp; ring. }
  destruct (Z.le_gt_cases e t) as [Hle|Hgt].
  - assert (mz = m /\ ez = e) as [-> ->].
    { unfold shl_align in Hsh. destruct (t - e)%Z eqn:Et; try lia;
        inversion Hsh; done. }
    apply bra_Rnd; [lia|done| |done].
    cbn [inbetween]. apply unscale.
  - pose proof (shl_align_fst m e t ltac:(lia)) as Hfst.
    rewrite Hsh in Hfst. cbn [fst] in Hfst.
    assert (Hez : ez = t) by lia. clear Hsnd. subst ez.
    apply bra_Rnd; [lia| | |done].
    + rewrite Hfst, Zdigits2_shift by lia.
      replace (Zdigits2 (Zpos m) + (e - t) + t)%Z
        with (Zdigits2 (Zpos m) + e)%Z by lia. apply Z.le_refl.
    + cbn [inbetween]. rewrite Hfst. apply scaled_shift. lia.
Qed.

Lemma binary_normalize_Rnd z e sz :
  Rnd (inject_Z z * pow2 e) (binary_normalize prec emax z e sz).
Proof.
  destruct z as [|m|m]; cbn [binary_normalize].
  - left. split; [ring|eauto].
  - apply (binary_round_Rnd false).
  - apply (binary_round_Rnd true).
Qed.

(** a valid float is its own rounding *)
Lemma Rnd_self r :
  valid r = true -> is_fin r = true -> Rnd (Qval r) r.
Proof.
  destruct r as [s| | |s m e]; try done; intros V _.
  - left. split; [reflexivity|eauto].
  - cbn [valid_binary] in V.
    pose proof (bounded_digits prec emax m e V) as (Hd & He & Hn).
    pose proof (Zdigits2_bounds (Zpos m) ltac:(lia)) as [Hl Hu].
    assert (Hm : (Zpos m < 2 ^ prec)%Z).
    { eapply Z.lt_le_trans; [exact Hu|]. apply Z.pow_le_mono_r; lia. }
    assert (Hr : rnd_to (inject_Z (Zpos m) * pow2 e) (Zpos m) e).
    { repeat split.
      - done.
      - rewrite (Z.add_comm e), pow2_add.
        apply Qmult_lt_compat_r; [apply pow2_pos|].
        rewrite pow2_Z by lia. by rewrite <- Zlt_Qlt.
      - intros Hgt. replace (e + prec - 1)%Z with (prec - 1 + e)%Z by lia.
        rewrite pow2_add.
        apply Qmult_le_compat_r; [|apply Qlt_le_weak, pow2_pos].
        rewrite pow2_Z by lia. rewrite <- Zle_Qle, <- (Hn Hgt). done.
      - rewrite unscale. lra.
      - rewrite unscale. lra.
      - rewrite unscale. intros [E|E]; lra. }
    assert (Hp : pack s (Zpos m) e = S754_finite s m e).
    { unfold pack. unfold bounded in V. apply andb_prop in V as [_ V].
      rewrite V. destruct (Z.eqb_spec (Zpos m) (2 ^ prec)); [lia|done]. }
    pose proof (mant_pos m e).
    destruct s; cbn [Qval cond_Zopp].
    + right; right. rewrite inject_Z_opp. split; [lra|].
      exists (Zpos m), e. split; [|done].
      apply (rnd_to_ext (inject_Z (Zpos m) * pow2 e)); [ring|done].
    + right; left. split; [done|]. exists (Zpos m), e. done.
Qed.
End Ops.

(** ** Addition, subtraction, conversion *)

Lemma new_location_inbetween (y : Q) (d q r : Z) :
  (0 < d)%Z -> (0 <= r < d)%Z ->
  (y * inject_Z d == inject_Z q * inject_Z d + inject_Z r)%Q ->
  inbetween y q (new_location d r).
Proof.
  intros Hd Hr Hy.
  assert (HD : (0 < inject_Z d)%Q) by (change 0%Q with (inject_Z 0); by rewrite <- Zlt_Qlt).
  assert (HR : (0 <= inject_Z r)%Q) by (change 0%Q with (inject_Z 0); rewrite <- Zle_Qle; lia).
  assert (Hcmp : forall a b : Q, (a * inject_Z d < b * inject_Z d)%Q -> (a < b)%Q).
  { intros a b. apply Qmult_lt_r. done. }
  assert (Heq : forall a b : Q, (a * inject_Z d == b * inject_Z d)%Q -> (a == b)%Q).
  { intros a b H. apply (Qmult_inj_r _ _ (inject_Z d)); [lra|done]. }
  assert (Hr0 : r = 0%Z -> inbetween y q loc_Exact).
  { intros ->. cbn. apply Heq. rewrite Hy. change (inject_Z 0) with 0%Q. ring. }
  assert (Hrd : (inject_Z r < inject_Z d)%Q) by (rewrite <- Zlt_Qlt; lia).
  unfold new_location. destruct (Z.even d) eqn:Ev.
  - unfold new_location_even. destruct (Z.eqb_spec r 0) as [|Hne0]; [auto|].
    assert (HR' : (0 < inject_Z r)%Q).
    { change 0%Q with (inject_Z 0). rewrite <- Zlt_Qlt. lia. }
    destruct (Z.compare_spec (2 * r) d) as [E|E|E]; cbn.
    + apply Heq. rewrite Hy, <- E, inject_Z_mult.
      change (inject_Z 2) with 2%Q. ring.
    + rewrite Zlt_Qlt, inject_Z_mult in E. change (inject_Z 2) with 2%Q in E.
      split; apply Hcmp; lra.
    + rewrite Zlt_Qlt, inject_Z_mult in E. change (inject_Z 2) with 2%Q in E.
      split; apply Hcmp; lra.
  - unfold new_location_odd. destruct (Z.eqb_spec r 0) as [|Hne0]; [auto|].
    assert (HR' : (0 < inject_Z r)%Q).
    { change 0%Q with (inject_Z 0). rewrite <- Zlt_Qlt. lia. }
    assert (Hne : (2 * r <> d)%Z).
    { intros <-. rewrite Z.even_mul in Ev. done. }
    destruct (Z.compare_spec (2 * r + 1) d) as [E|E|E]; cbn.
    + assert (E' : (2 * r < d)%Z) by lia.
      rewrite Zlt_Qlt, inject_Z_mult in E'. change (inject_Z 2) with 2%Q in E'.
      split; apply Hcmp; lra.
    + assert (E' : (2 * r < d)%Z) by lia.
      rewrite Zlt_Qlt, inject_Z_mult in E'. change (inject_Z 2) with 2%Q in E'.
      split; apply Hcmp; lra.
    + assert (E' : (d < 2 * r)%Z) by lia.
      rewrite Zlt_Qlt, inject_Z_mult in E'. change (inject_Z 2) with 2%Q in E'.
      split; apply Hcmp; lra.
Qed.

Lemma inject_cond_Zopp (s : bool) z :
  (inject_Z (cond_Zopp s z) == (if s then - inject_Z z else inject_Z z))%Q.
Proof. destruct s; cbn [cond_Zopp]; rewrite ?inject_Z_opp; reflexivity. Qed.

Lemma Qval_finite (s : bool) m e :
  (Qval (S754_finite s m e)
   == (if s then - (inject_Z (Zpos m) * pow2 e) else inject_Z (Zpos m) * pow2 e))%Q.
Proof. destruct s; cbn [Qval cond_Zopp]; rewrite ?inject_Z_opp; ring. Qed.

Lemma Qval_align s m e ez :
  (ez <= e)%Z ->
  (inject_Z (cond_Zopp s (Zpos (fst (shl_align m e ez)))) * pow2 ez
   == Qval (S754_finite s m e))%Q.
Proof.
  intros H. rewrite shl_align_fst by done.
  pose proof (pow2_mul_Z (Zpos m) e (e - ez) ltac:(lia)) as Hm.
  replace (e - (e - ez))%Z with ez in Hm by lia.
  rewrite Qval_finite.
  destruct s; cbn [cond_Zopp]; rewrite ?inject_Z_opp, <- Hm; ring.
Qed.

Section Ops.
Variables prec emax : Z.
Hypothesis Hprec : (0 < prec)%Z.

Local Abbreviation fexp := (fexp prec emax).
Local Abbreviation valid := (valid_binary prec emax).
Local Abbreviation Rnd := (Rnd prec emax).
Local Abbreviation convert := (convert prec emax).

Lemma valid_opp s s' m e :
  valid (S754_finite s m e) = true -> valid (S754_finite s' m e) = true.
Proof. done. Qed.

Lemma SFsub_Rnd x y :
  valid x = true -> valid y = true -> is_fin x = true -> is_fin y = true ->
  Rnd (Qval x - Qval y) (SFsub prec emax x y).
Proof.
  intros Vx Vy Fx Fy.
  destruct x as [sx| | |sx mx ex], y as [sy| | |sy my ey]; try done.
  - left. split; [cbn; ring|]. destruct sx, sy; cbn; eauto.
  - cbn [SFsub]. apply (Rnd_ext _ _ (Qval (S754_finite (negb sy) my ey))).
    + rewrite !Qval_finite. cbn [Qval]. destruct sy; cbn [negb]; ring.
    + apply Rnd_self; done.
  - cbn [SFsub]. apply (Rnd_ext _ _ (Qval (S754_finite sx mx ex))).
    + cbn [Qval]. ring.
    + apply Rnd_self; done.
  - cbn [SFsub]. eapply Rnd_ext; [|apply binary_normalize_Rnd; done].
    unfold Z.sub at 1. rewrite inject_Z_plus, inject_Z_opp.
    rewrite <- (Qval_align sx mx ex (Z.min ex ey)) by lia.
    rewrite <- (Qval_align sy my ey (Z.min ex ey)) by lia. ring.
Qed.

Lemma SFadd_Rnd x y :
  valid x = true -> valid y = true -> is_fin x = true -> is_fin y = true ->
  Rnd (Qval x + Qval y) (SFadd prec emax x y).
Proof.
  intros Vx Vy Fx Fy.
  destruct x as [sx| | |sx mx ex], y as [sy| | |sy my ey]; try done.
  - left. split; [cbn; ring|]. destruct sx, sy; cbn; eauto.
  - cbn [SFadd]. apply (Rnd_ext _ _ (Qval (S754_finite sy my ey))).
    + cbn [Qval]. ring.
    + apply Rnd_self; done.
  - cbn [SFadd]. apply (Rnd_ext _ _ (Qval (S754_finite sx mx ex))).
    + cbn [Qval]. ring.
    + apply Rnd_self; done.
  - cbn [SFadd]. eapply Rnd_ext; [|apply binary_normalize_Rnd; done].
    rewrite inject_Z_plus.
    rewrite <- (Qval_align sx mx ex (Z.min ex ey)) by lia.
    rewrite <- (Qval_align sy my ey (Z.min ex ey)) by lia. ring.
Qed.

Lemma convert_Rnd x : is_fin x = true -> Rnd (Qval x) (convert x).
Proof.
  destruct x as [s| | |s m e]; try done; intros _.
  - left. split; [reflexivity|eauto].
  - apply binary_round_Rnd. done.
Qed.
End Ops.

(** ** Division *)

Lemma pow2_neq0 e : ~ (pow2 e == 0)%Q.
Proof. pose proof (pow2_pos e). lra. Qed.

Lemma inject_pos_neq0 m : ~ (inject_Z (Zpos m) == 0)%Q.
Proof. assert (0 < inject_Z (Zpos m))%Q by reflexivity. lra. Qed.

Lemma quotient_pos mx ex my ey : (0 < quotient mx ex my ey)%Q.
Proof.
  unfold quotient. apply Qlt_shift_div_l; [apply mant_pos|].
  rewrite Qmult_0_l. apply mant_pos.
Qed.

Lemma quotient_mul mx ex my ey :
  (quotient mx ex my ey * inject_Z (Zpos my)
   == inject_Z (Zpos mx) * pow2 (ex - ey))%Q.
Proof.
  unfold quotient.
  assert (H : (pow2 ex == pow2 (ex - ey) * pow2 ey)%Q).
  { rewrite <- pow2_add. replace (ex - ey + ey)%Z with ex by lia. reflexivity. }
  rewrite H. field. split; [apply pow2_neq0|apply inject_pos_neq0].
Qed.

Section Div.
Variables prec emax : Z.
Hypothesis Hprec : (0 < prec)%Z.

Local Abbreviation fexp := (fexp prec emax).
Local Abbreviation Rnd := (Rnd prec emax).

Lemma fexp_mono a b : (a <= b)%Z -> (fexp a <= fexp b)%Z.
Proof. unfold SpecFloat.fexp. lia. Qed.

Lemma SFdiv_core_spec mx ex my ey :
  let '(q, e', l) := SFdiv_core_binary prec emax (Zpos mx) ex (Zpos my) ey in
  (0 <= q)%Z /\ (e' <= fexp (Zdigits2 q + e'))%Z
  /\ inbetween (quotient mx ex my ey * pow2 (- e')) q l.
Proof.
  unfold SFdiv_core_binary.
  set (d1 := Zdigits2 (Zpos mx)). set (d2 := Zdigits2 (Zpos my)).
  set (e' := Z.min (fexp (d1 + ex - (d2 + ey))) (ex - ey)).
  set (s := (ex - ey - e')%Z).
  assert (Hs : (0 <= s)%Z) by lia.
  set (m' := match s with Zpos _ => Z.shiftl (Zpos mx) s | Z0 => Zpos mx
             | Zneg _ => Z0 end).
  assert (Hm' : m' = (Zpos mx * 2 ^ s)%Z).
  { unfold m'. destruct s eqn:Es; [lia| |lia].
    rewrite Z.shiftl_mul_pow2 by lia. done. }
  clearbody m'.
  pose proof (Z_div_mod m' (Zpos my) ltac:(lia)) as Hdiv.
  destruct (Z.div_eucl m' (Zpos my)) as [q r]. destruct Hdiv as [Hq Hr].
  assert (H2s : (0 < 2 ^ s)%Z) by (apply Z.pow_pos_nonneg; lia).
  assert (Hm0 : (0 < m')%Z) by (rewrite Hm'; apply Z.mul_pos_pos; lia).
  assert (Hq0 : (0 <= q)%Z).
  { destruct (Z.le_gt_cases 0 q) as [|Hneg]; [done|].
    assert (Zpos my * q <= Zpos my * (-1))%Z
      by (apply Z.mul_le_mono_nonneg_l; lia).
    lia. }
  split; [done|]. split.
  - apply (Z.le_trans _ (fexp (d1 + ex - (d2 + ey)))); [lia|].
    apply fexp_mono.
    assert (Hd : (d1 + s - d2 <= Zdigits2 q)%Z).
    { destruct (Z.le_gt_cases (d1 + s - d2) 0) as [|Hk].
      { assert (0 <= Zdigits2 q)%Z by (clear; destruct q; cbn; lia). lia. }
      enough (d1 + s - d2 - 1 + 1 <= Zdigits2 q)%Z by lia.
      apply (Zdigits2_ge q (d1 + s - d2 - 1)); [|lia].
      pose proof (Zdigits2_bounds (Zpos mx) ltac:(lia)) as [Hl1 _].
      pose proof (Zdigits2_bounds (Zpos my) ltac:(lia)) as [_ Hu2].
      fold d1 in Hl1. fold d2 in Hu2.
      assert (Hp : (2 ^ (d1 - 1) * 2 ^ s = 2 ^ (d1 + s - d2 - 1) * 2 ^ d2)%Z).
      { pose proof (Zdigits2_pos (Zpos my) ltac:(lia)).
        pose proof (Zdigits2_pos (Zpos mx) ltac:(lia)).
        fold d1 in H0. fold d2 in H.
        rewrite <- (Z.pow_add_r 2 (d1 - 1) s) by lia.
        rewrite <- (Z.pow_add_r 2 (d1 + s - d2 - 1) d2) by lia.
        f_equal. lia. }
      assert (Hk' : (0 < 2 ^ (d1 + s - d2 - 1))%Z)
        by (apply Z.pow_pos_nonneg; lia).
      nia. }
    lia.
  - apply new_location_inbetween with (r := r); [lia|lia|].
    rewrite <- inject_Z_mult, <- inject_Z_plus.
    replace (q * Zpos my + r)%Z with m' by lia. rewrite Hm'. unfold s.
    transitivity (inject_Z (Zpos mx) * pow2 (ex - ey) * pow2 (- e'))%Q;
      [|apply scaled_shift; lia].
    rewrite <- (quotient_mul mx ex my ey). ring.
Qed.

Lemma SFdiv_Rnd x sy my ey :
  is_fin x = true ->
  Rnd (Qval x / Qval (S754_finite sy my ey))
      (SFdiv prec emax x (S754_finite sy my ey)).
Proof.
  pose proof (inject_pos_neq0 my). pose proof (pow2_neq0 ey).
  assert (Hy : ~ (Qval (S754_finite sy my ey) == 0)%Q).
  { pose proof (mant_pos my ey). rewrite Qval_finite. destruct sy; lra. }
  destruct x as [sx| | |sx mx ex]; try done; intros _.
  - left. split; [|cbn; eauto]. unfold Qdiv. cbn [Qval]. ring.
  - cbn [SFdiv].
    pose proof (SFdiv_core_spec mx ex my ey) as Hc.
    destruct (SFdiv_core_binary prec emax (Zpos mx) ex (Zpos my) ey)
      as [[q e'] l]. destruct Hc as (Hq & Hpre & Hin).
    eapply Rnd_ext;
      [|apply (bra_Rnd prec emax Hprec (xorb sx sy) q e' l _ Hq Hpre Hin),
          quotient_pos].
    unfold quotient. rewrite !Qval_finite.
    destruct sx, sy; cbn [xorb]; field; auto.
Qed.
End Div.

(** ** Monotone operations *)

Lemma Qdiv_anti a b1 b2 :
  (0 <= a)%Q -> (0 < b1)%Q -> (b1 <= b2)%Q -> (a / b2 <= a / b1)%Q.
Proof.
  intros Ha Hb1 Hb. apply Qle_shift_div_r; [lra|].
  assert (H : (a == a / b1 * b1)%Q) by (field; lra).
  assert (H0 : (0 <= a / b1)%Q).
  { apply Qle_shift_div_l; [done|]. lra. }
  assert (H1 : (a / b1 * b1 <= a / b1 * b2)%Q).
  { destruct (Qeq_dec (a / b1) 0) as [E|E]; [rewrite E; lra|].
    apply Qmult_le_l; [lra|done]. }
  lra.
Qed.

Lemma val_fin x : is_fin x = true -> val x = XFin (Qval x).
Proof. destruct x as [|[]| |]; done. Qed.

Section Mono.
Variables prec emax : Z.
Hypothesis Hprec : (0 < prec)%Z.

Local Abbreviation valid := (valid_binary prec emax).
Local Abbreviation Rnd := (Rnd prec emax).
Local Abbreviation convert := (convert prec emax).

Lemma convert_num x :
  is_num x = true ->
  valid (convert x) = true /\ is_num (convert x) = true.
Proof.
  intros Hx. destruct (is_fin x) eqn:F.
  - apply (Rnd_valid prec emax Hprec (Qval x)), convert_Rnd; done.
  - destruct x; done.
Qed.

Lemma convert_mono x y :
  is_num x = true -> is_num y = true -> xle (val x) (val y) ->
  xle (val (convert x)) (val (convert y)).
Proof.
  intros Nx Ny H.
  destruct (is_fin x) eqn:Fx, (is_fin y) eqn:Fy.
  - apply (Rnd_mono prec emax Hprec (Qval x) (Qval y));
      [apply convert_Rnd; done..|].
    rewrite !val_fin in H by done. done.
  - destruct y as [|[]| |]; try done.
    + destruct x as [|[]| |]; done.
    + cbn [convert val]. destruct (val (convert x)); done.
  - destruct x as [|[]| |]; try done.
    destruct y as [|[]| |]; done.
  - destruct x as [|[]| |], y as [|[]| |]; done.
Qed.

Lemma SFsub_num x c :
  valid x = true -> is_num x = true -> valid c = true -> is_fin c = true ->
  valid (SFsub prec emax x c) = true /\ is_num (SFsub prec emax x c) = true.
Proof.
  intros Vx Nx Vc Fc. destruct (is_fin x) eqn:F.
  - apply (Rnd_valid prec emax Hprec (Qval x - Qval c)), SFsub_Rnd; done.
  - destruct x as [| | |], c as [| | |]; done.
Qed.

Lemma SFsub_mono_l c x y :
  valid c = true -> is_fin c = true ->
  valid x = true -> valid y = true -> is_num x = true -> is_num y = true ->
  xle (val x) (val y) ->
  xle (val (SFsub prec emax x c)) (val (SFsub prec emax y c)).
Proof.
  intros Vc Fc Vx Vy Nx Ny H.
  destruct (is_fin x) eqn:Fx, (is_fin y) eqn:Fy.
  - apply (Rnd_mono prec emax Hprec (Qval x - Qval c) (Qval y - Qval c));
      [apply SFsub_Rnd; done..|].
    rewrite !val_fin in H by done. cbn in H. lra.
  - destruct y as [|[]| |]; try done.
    + destruct x as [|[]| |]; done.
    + destruct c; try done; cbn [SFsub val];
        destruct (val (SFsub prec emax x _)); done.
  - destruct x as [|[]| |]; try done.
    + destruct c; done.
    + destruct y as [|[]| |]; done.
  - destruct x as [|[]| |], y as [|[]| |], c; done.
Qed.

Lemma SFadd_num x c :
  valid x = true -> is_num x = true -> valid c = true -> is_fin c = true ->
  valid (SFadd prec emax x c) = true /\ is_num (SFadd prec emax x c) = true.
Proof.
  intros Vx Nx Vc Fc. destruct (is_fin x) eqn:F.
  - apply (Rnd_valid prec emax Hprec (Qval x + Qval c)), SFadd_Rnd; done.
  - destruct x as [| | |], c as [| | |]; done.
Qed.

(** [x / y] decreases in a positive finite [y] when [x >= 0] is finite *)
Lemma SFdiv_anti x m1 e1 m2 e2 :
  is_fin x = true -> (0 <= Qval x)%Q ->
  (Qval (S754_finite false m1 e1) <= Qval (S754_finite false m2 e2))%Q ->
  xle (val (SFdiv prec emax x (S754_finite false m2 e2)))
      (val (SFdiv prec emax x (S754_finite false m1 e1))).
Proof.
  intros Fx Hx H.
  apply (Rnd_mono prec emax Hprec _ _ _ _
           (SFdiv_Rnd prec emax Hprec x false m2 e2 Fx)
           (SFdiv_Rnd prec emax Hprec x false m1 e1 Fx)).
  apply Qdiv_anti; [done| |done]. apply mant_pos.
Qed.

Lemma SFdiv_num x s m e :
  is_fin x = true ->
  valid (SFdiv prec emax x (S754_finite s m e)) = true
  /\ is_num (SFdiv prec emax x (S754_finite s m e)) = true.
Proof.
  intros Fx. eapply (Rnd_valid prec emax Hprec), SFdiv_Rnd; done.
Qed.
End Mono.

(** ** Signs *)

Lemma shr_1_nonneg mrs : (0 <= shr_m mrs)%Z -> (0 <= shr_m (shr_1 mrs))%Z.
Proof. destruct mrs as [[|[p|p|]|p] r s]; cbn; lia. Qed.

Lemma iter_pos_nonneg k : forall mrs,
  (0 <= shr_m mrs)%Z -> (0 <= shr_m (SpecFloat.iter_pos shr_1 k mrs))%Z.
Proof.
  induction k as [k IH|k IH|]; intros mrs H; cbn [SpecFloat.iter_pos].
  - apply IH, IH, shr_1_nonneg, H.
  - apply IH, IH, H.
  - apply shr_1_nonneg, H.
Qed.

Lemma shr_nonneg mrs e n :
  (0 <= shr_m mrs)%Z -> (0 <= shr_m (fst (shr mrs e n)))%Z.
Proof.
  intros H. destruct n; cbn [shr fst]; try done. by apply iter_pos_nonneg.
Qed.

Lemma round_nearest_even_nonneg m l :
  (0 <= m)%Z -> (0 <= round_nearest_even m l)%Z.
Proof. intros H. destruct l as [|[]]; cbn; try lia. destruct (Z.even m); lia. Qed.

Lemma bra_has_sign prec emax s m e l :
  (0 <= m)%Z -> has_sign s (binary_round_aux prec emax s m e l) = true.
Proof.
  intros Hm. unfold binary_round_aux, shr_fexp.
  pose proof (shr_nonneg (shr_record_of_loc m l) e
                (fexp prec emax (Zdigits2 m + e) - e)) as H1.
  rewrite shr_m_shr_record_of_loc in H1. specialize (H1 Hm).
  destruct (shr (shr_record_of_loc m l) e _) as [mrs1 e1]. cbn [fst] in H1.
  set (n := round_nearest_even (shr_m mrs1) (loc_of_shr_record mrs1)).
  assert (Hn : (0 <= n)%Z) by (apply round_nearest_even_nonneg; done).
  pose proof (shr_nonneg (shr_record_of_loc n loc_Exact) e1
                (fexp prec emax (Zdigits2 n + e1) - e1)) as H2.
  cbn [shr_record_of_loc shr_m] in H2. specialize (H2 Hn).
  cbn [shr_record_of_loc].
  destruct (shr {| shr_m := n; shr_r := false; shr_s := false |} e1 _)
    as [mrs2 e2]. cbn [fst] in H2.
  destruct (shr_m mrs2); [| |lia].
  - cbn. by destruct s.
  - destruct (e2 <=? emax - prec)%Z; cbn; by destruct s.
Qed.

Lemma binary_round_has_sign prec emax s m e :
  has_sign s (binary_round prec emax s m e) = true.
Proof.
  unfold binary_round. destruct (shl_align m e _) as [mz ez].
  by apply bra_has_sign.
Qed.

Lemma binary_normalize_nonneg prec emax z e :
  (0 <= z)%Z -> has_sign false (binary_normalize prec emax z e false) = true.
Proof.
  destruct z as [|p|p]; [done| |lia]. intros _.
  apply binary_round_has_sign.
Qed.

Lemma convert_has_sign prec emax s x :
  has_sign s x = true -> has_sign s (convert prec emax x) = true.
Proof.
  destruct x as [| | |s' m e]; try done. cbn [has_sign convert].
  intros H. apply eqb_prop in H. subst s'. apply binary_round_has_sign.
Qed.

Lemma SFsqrt_has_sign prec emax x :
  has_sign false x = true -> has_sign false (SFsqrt prec emax x) = true.
Proof.
  destruct x as [s|[]| |[] m e]; try done. intros _. cbn [SFsqrt].
  unfold SFsqrt_core_binary.
  set (m' := match (e - 2 * _)%Z with Zpos _ => _ | Z0 => _ | Zneg _ => _ end).
  assert (Hm' : (0 <= m')%Z).
  { unfold m'. destruct (e - 2 * _)%Z; try lia. by apply Z.shiftl_nonneg. }
  pose proof (Z.sqrtrem_spec m' Hm') as Hs.
  destruct (Z.sqrtrem m') as [q r].
  apply bra_has_sign. lia.
Qed.

Lemma SFmul_has_sign prec emax m e y :
  has_sign false y = true ->
  has_sign false (SFmul prec emax (S754_finite false m e) y) = true.
Proof.
  destruct y as [[]|[]| |[] my ey]; try done. intros _. cbn [SFmul xorb].
  by apply bra_has_sign.
Qed.

Lemma SFdiv_core_nonneg prec emax mx ex my ey :
  (0 <= fst (fst (SFdiv_core_binary prec emax (Zpos mx) ex (Zpos my) ey)))%Z.
Proof.
  unfold SFdiv_core_binary.
  set (m' := match (ex - ey - _)%Z with Zpos _ => _ | Z0 => _ | Zneg _ => _ end).
  assert (Hm' : (0 <= m')%Z).
  { unfold m'. destruct (ex - ey - _)%Z; try lia. by apply Z.shiftl_nonneg. }
  pose proof (Z_div_mod m' (Zpos my) ltac:(lia)) as Hd.
  destruct (Z.div_eucl m' (Zpos my)) as [q r]. cbn [fst].
  destruct Hd as [Hq Hr].
  destruct (Z.le_gt_cases 0 q) as [|Hneg]; [done|].
  assert (Zpos my * q <= Zpos my * (-1))%Z
    by (apply Z.mul_le_mono_nonneg_l; lia).
  lia.
Qed.

(** a quotient of two numbers with the sign bit clear, the dividend finite
    and not zero, or the divisor finite and not zero *)
Lemma SFdiv_has_sign prec emax x y :
  has_sign false x = true -> has_sign false y = true ->
  (exists m e, x = S754_finite false m e)
  \/ (exists m e, y = S754_finite false m e) ->
  has_sign false (SFdiv prec emax x y) = true.
Proof.
  intros Hx Hy H.
  destruct x as [[]|[]| |[] mx ex], y as [[]|[]| |[] my ey]; try done;
    try (destruct H as [(? & ? & ?)|(? & ? & ?)]; done).
  cbn [SFdiv xorb].
  pose proof (SFdiv_core_nonneg prec emax mx ex my ey) as Hq.
  destruct (SFdiv_core_binary prec emax (Zpos mx) ex (Zpos my) ey) as [[q e'] l].
  by apply bra_has_sign.
Qed.


Lemma has_sign_nonneg x : has_sign false x = true -> xle (XFin 0) (val x).
Proof.
  destruct x as [|[]| |[] m e]; try done; cbn [val Qval xle]; try lra.
  intros _. pose proof (mant_pos m e). cbn [cond_Zopp]. lra.
Qed.

(** * Properties *)

(** ** The generator writes the priors of each cell in order *)

Section Generator.
Context (c : config).

Lemma put_prior_idx h w bw bh e idx :
  snd (put_prior c h w bw bh (e, idx)) = S idx.
Proof. reflexivity. Qed.

Lemma put_prior_lookup h w bw bh e idx h' w' i k :
  fst (put_prior c h w bw bh (e, idx)) !! (h', w', i, k)
  = if decide (h' = h ∧ w' = w ∧ i = idx ∧ k < 4)
    then prior_coord c h w (bw, bh) k
    else e !! (h', w', i, k).
Proof.
  unfold put_prior; cbn [fst].
  case_decide as Hd.
  - destruct Hd as (-> & -> & -> & Hk).
    destruct k as [|[|[|[|k]]]]; [| | | |lia]; cbn [prior_coord fst snd].
    + rewrite !(lookup_insert_ne _ (_, _, _, S _)) by congruence.
      apply lookup_insert_eq.
    + rewrite !(lookup_insert_ne _ (_, _, _, S (S _))) by congruence.
      apply lookup_insert_eq.
    + rewrite lookup_insert_ne by congruence. apply lookup_insert_eq.
    + apply lookup_insert_eq.
  - rewrite !lookup_insert_ne; [done|intros [= <- <- <- <-]; apply Hd; lia..].
Qed.

Lemma put_all_idx h w ps e idx :
  snd (put_all c h w ps (e, idx)) = idx + length ps.
Proof.
  revert e idx; induction ps as [|p ps IH]; intros e idx; cbn.
  - lia.
  - unfold put_all in IH. rewrite IH. lia.
Qed.

Lemma put_all_lookup h w ps e idx h' w' i k :
  fst (put_all c h w ps (e, idx)) !! (h', w', i, k)
  = if decide (h' = h ∧ w' = w ∧ idx ≤ i < idx + length ps ∧ k < 4)
    then ps !! (i - idx) ≫= fun p => prior_coord c h w p k
    else e !! (h', w', i, k).
Proof.
  revert e idx; induction ps as [|[bw bh] ps IH]; intros e idx.
  - cbn. case_decide; [lia|done].
  - change (put_all c h w ((bw, bh) :: ps) (e, idx))
      with (put_all c h w ps (put_prior c h w bw bh (e, idx))).
    change (put_prior c h w bw bh (e, idx))
      with (fst (put_prior c h w bw bh (e, idx)), S idx).
    rewrite IH, put_prior_lookup. cbn [length].
    repeat case_decide; try lia; try done.
    + replace (i - idx) with (S (i - S idx)) by lia. done.
    + replace (i - idx) with 0 by lia. cbn.
      destruct_and!; subst. done.
Qed.

Lemma put_all_app h w ps qs st :
  put_all c h w (ps ++ qs) st = put_all c h w qs (put_all c h w ps st).
Proof. apply fold_left_app. Qed.

Lemma ratio_loop ars h w min_size st :
  fold_left (ratio_step c h w min_size) ars st
  = put_all c h w (map (ratio_box min_size) (non_unit ars)) st.
Proof.
  revert st; induction ars as [|ar ars IH]; intros st; [done|].
  cbn [fold_left]. rewrite IH. unfold non_unit, ratio_step.
  rewrite filter_cons. destruct (is_unit_ratio ar) eqn:E.
  - rewrite decide_False by done. done.
  - rewrite decide_True by done. done.
Qed.

Lemma size_step_priors ars h w st s :
  size_step c ars h w st s = put_all c h w (size_priors c ars s) st.
Proof.
  unfold size_step, size_priors. rewrite ratio_loop, !put_all_app.
  destruct (0 <? length (max_sizes c)); done.
Qed.

Lemma size_loop ars h w ss st :
  fold_left (size_step c ars h w) ss st
  = put_all c h w (flat_map (size_priors c ars) ss) st.
Proof.
  revert st; induction ss as [|s ss IH]; intros st; [done|].
  cbn [fold_left flat_map]. rewrite IH, size_step_priors, put_all_app. done.
Qed.

(** the loop of a cell is a run of stores of [cell_priors] from index 0 *)
Lemma cell_put_all ars h w e :
  cell c ars h w e = put_all c h w (cell_priors c ars) (e, 0).
Proof. apply size_loop. Qed.

Lemma cell_idx ars h w e :
  snd (cell c ars h w e) = length (cell_priors c ars).
Proof. rewrite cell_put_all, put_all_idx. done. Qed.

Lemma cell_lookup ars h w e h' w' i k :
  fst (cell c ars h w e) !! (h', w', i, k)
  = if decide (h' = h ∧ w' = w ∧ k < 4)
    then match cell_priors c ars !! i with
         | Some p => prior_coord c h w p k
         | None => e !! (h', w', i, k)
         end
    else e !! (h', w', i, k).
Proof.
  rewrite cell_put_all, put_all_lookup, Nat.sub_0_r.
  destruct (cell_priors c ars !! i) as [p|] eqn:E.
  - apply lookup_lt_Some in E. repeat case_decide; try done; lia.
  - apply lookup_ge_None in E. repeat case_decide; try done; lia.
Qed.

Lemma row_lookup ars h e h' w' i k :
  row c ars h e !! (h', w', i, k)
  = if decide (h' = h ∧ w' < layer_width c ∧ k < 4)
    then match cell_priors c ars !! i with
         | Some p => prior_coord c h w' p k
         | None => e !! (h', w', i, k)
         end
    else e !! (h', w', i, k).
Proof.
  unfold row. induction (layer_width c) as [|n IH].
  - cbn. case_decide; [lia|done].
  - rewrite seq_S, fold_left_app. cbn [fold_left Nat.add].
    rewrite cell_lookup, IH.
    destruct (cell_priors c ars !! i); repeat case_decide; try done; try lia.
    destruct_and!; subst; done.
Qed.

Lemma rows_lookup ars n h' w' i k :
  fold_left (fun e h => row c ars h e) (seq 0 n) ∅ !! (h', w', i, k)
  = if decide (h' < n ∧ w' < layer_width c ∧ k < 4)
    then cell_priors c ars !! i ≫= fun p => prior_coord c h' w' p k
    else None.
Proof.
  induction n as [|n IH].
  - cbn. case_decide; [lia|done].
  - rewrite seq_S, fold_left_app. cbn [fold_left Nat.add].
    rewrite row_lookup, IH.
    destruct (cell_priors c ars !! i); repeat case_decide; try done; try lia.
    destruct_and!; subst; done.
Qed.

(** what the buffer holds after the two loops *)
Lemma generate_lookup h w i k :
  generate c !! (h, w, i, k)
  = if decide (h < layer_height c ∧ w < layer_width c ∧ k < 4)
    then cell_priors c (ExpandAspectRatios (aspect_ratios c) (flip c)) !! i
         ≫= fun p => prior_coord c h w p k
    else None.
Proof. apply rows_lookup. Qed.
End Generator.

(** ** C2: ExpandAspectRatios *)

Lemma already_exist_existsb ar output :
  already_exist ar output = existsb (within_eps ar) output.
Proof.
  induction output as [|x rest IH]; cbn; [done|].
  rewrite IH. destruct (within_eps ar x); done.
Qed.

Lemma expand_snoc input ar flip :
  ExpandAspectRatios (input ++ [ar]) flip
  = expand_step flip (ExpandAspectRatios input flip) ar.
Proof. unfold ExpandAspectRatios. rewrite fold_left_app. done. Qed.

Lemma expand_step_head flip x rest ar :
  ∃ rest', expand_step flip (x :: rest) ar = x :: rest'.
Proof.
  unfold expand_step.
  destruct (already_exist ar (x :: rest)); [eauto|].
  destruct flip; cbn; eauto.
Qed.

Lemma expand_head input flip :
  ∃ rest, ExpandAspectRatios input flip = d2f (F64.of_Z 1) :: rest.
Proof.
  induction input as [|ar input IH] using rev_ind; [by eexists|].
  destruct IH as [rest IH]. rewrite expand_snoc, IH. apply expand_step_head.
Qed.

(** C2.  The expansion starts with 1.0; each input ratio, in order, is
    appended exactly when no value [x] of the output accumulated so far has
    [fabs(ar - x) < eps], where [eps] is the [float] 8796093 * 2^-43, the
    one next to 1e-6; with [flip] the reciprocal [1. / ar] follows it at
    once, with no test of its own.  Next to 2.0 the ratio four units in the
    last place above (9.5e-7 away) is dropped and the one five units above
    (1.19e-6 away) is kept.  For [2.0; 3.0] with [flip] the result is
    [1.0; 2.0; 0.5; 3.0; 1/3]. *)
Theorem expand_aspect_ratios_spec :
  (∀ flip, ExpandAspectRatios [] flip = [F32.of_Z 1])
  ∧ (∀ input flip,
       ∃ rest, ExpandAspectRatios input flip = F32.of_Z 1 :: rest)
  ∧ (∀ input ar flip,
       ExpandAspectRatios (input ++ [ar]) flip
       = let output := ExpandAspectRatios input flip in
         if existsb (fun x => SFltb (SFabs (F32.sub ar x))
                                    (S754_finite false 8796093 (-43)))
                    output
         then output
         else output
              ++ ar :: (if flip then [d2f (F64.div (F64.of_Z 1) (f2d ar))]
                        else []))
  ∧ ((1 # 1000000) - (1 # 100000000000000)
     <= Qval (S754_finite false 8796093 (-43)) <= 1 # 1000000)%Q
  ∧ ExpandAspectRatios
      [S754_finite false 8388608 (-22); S754_finite false 8388612 (-22);
       S754_finite false 8388613 (-22)] false
    = [F32.of_Z 1; S754_finite false 8388608 (-22);
       S754_finite false 8388613 (-22)]
  ∧ ExpandAspectRatios [F32.of_Z 2; F32.of_Z 3] true
    = [F32.of_Z 1; F32.of_Z 2; F32.div (F32.of_Z 1) (F32.of_Z 2);
       F32.of_Z 3; F32.div (F32.of_Z 1) (F32.of_Z 3)].
Proof.
  split; [done|]. split; [intros; apply expand_head|].
  split; [|split; [|split; by vm_compute]].
  - intros input ar flip. rewrite expand_snoc. unfold expand_step.
    rewrite already_exist_existsb.
    change (existsb (within_eps ar)) with
      (existsb (fun x => SFltb (SFabs (F32.sub ar x))
                               (S754_finite false 8796093 (-43)))).
    cbv zeta. destruct (existsb _ _); [done|].
    destruct flip; [|done]. by rewrite <- app_assoc.
  - cbn [Qval cond_Zopp]. change (pow2 (-43)) with (1 # 8796093022208)%Q.
    split; unfold Qle, Qminus, Qplus, Qopp, Qmult, inject_Z; cbn; lia.
Qed.

(** ** C5: the number of priors of a cell *)

(** C5.  The count that sizes the outputs is
    [len(expanded_ratios) * len(min_sizes) + len(max_sizes)]; for
    [min_sizes = [30]], [max_sizes = [60]], [aspect_ratios = [2.0]] without
    [flip] the expansion is [1.0; 2.0] and the count is 3. *)
Theorem num_priors_formula :
  (∀ c, num_priors c
        = length (ExpandAspectRatios (aspect_ratios c) (flip c))
          * length (min_sizes c) + length (max_sizes c))
  ∧ ExpandAspectRatios (aspect_ratios ex_count) (flip ex_count)
    = [F32.of_Z 1; F32.of_Z 2]
  ∧ num_priors ex_count = 3.
Proof.
  split; [|split; by vm_compute].
  intros c. unfold num_priors.
  destruct (max_sizes c) as [|x l]; cbn [length].
  - change (0 <? 0) with false. cbv iota. lia.
  - done.
Qed.

(** ** C6: the variances *)



(** ** C7: the steps *)

(** C7.  When [step_w] and [step_h] are both non-zero they are the steps;
    when one of them is zero the steps are the quotients of the image by the
    layer dimensions, in floating point. *)
Theorem step_resolution c :
  (SFeqb (step_w c) (F32.of_Z 0) = false
   → SFeqb (step_h c) (F32.of_Z 0) = false
   → step_width c = step_w c ∧ step_height c = step_h c)
  ∧ (SFeqb (step_w c) (F32.of_Z 0) = true
     ∨ SFeqb (step_h c) (F32.of_Z 0) = true
     → step_width c
       = F32.div (F32.of_Z (Z.of_nat (img_width c)))
                 (F32.of_Z (Z.of_nat (layer_width c)))
       ∧ step_height c
         = F32.div (F32.of_Z (Z.of_nat (img_height c)))
                   (F32.of_Z (Z.of_nat (layer_height c)))).
Proof.
  unfold step_width, step_height. split.
  - intros -> ->. done.
  - intros [-> | ->]; [done|]. by rewrite orb_true_r.
Qed.

(** ** C3: the order of the priors in a cell *)






(** ** C4: the coordinates of a prior *)



(** ** C8: clipping *)

(** C8.  With [clip] every value [v] of the buffer is replaced, after the
    generation, by [min(max(v, 0), 1)]: with [m] the value 0 when [v < 0]
    and [v] otherwise, by 1 when [1 < m] and by [m] otherwise.  Without
    [clip] the buffer is the generator's output.  The variances do not
    depend on [clip]. *)
Theorem clip_contract c :
  (clip c = true →
   ∀ key, Boxes (PriorBoxOpKernel_Compute c) !! key
          = (fun v =>
               let m := if SFltb v (S754_zero false) then S754_zero false
                        else v in
               if SFltb (S754_finite false 8388608 (-23)) m
               then S754_finite false 8388608 (-23) else m)
            <$> generate c !! key)
  ∧ (Qval (S754_finite false 8388608 (-23)) == 1)%Q
  ∧ (clip c = false → Boxes (PriorBoxOpKernel_Compute c) = generate c)
  ∧ (∀ b, generate (with_clip b c) = generate c
          ∧ Variances (PriorBoxOpKernel_Compute (with_clip b c))
            = Variances (PriorBoxOpKernel_Compute c)).
Proof.
  unfold PriorBoxOpKernel_Compute. split; [|split; [|split]].
  - intros ->. cbn [Boxes]. intros key. unfold transform.
    rewrite lookup_fmap. done.
  - by vm_compute.
  - intros ->. done.
  - intros b. split; done.
Qed.

(** ** C9: ClipFunctor *)

Lemma SFcompare_antisym x y :
  SFcompare x y = option_map CompOpp (SFcompare y x).
Proof.
  destruct x as [sx|sx| |sx mx ex], y as [sy|sy| |sy my ey];
    try (destruct sx); try (destruct sy); try reflexivity; cbn;
    change (Pos.compare_cont Eq mx my) with (mx ?= my)%positive;
    change (Pos.compare_cont Eq my mx) with (my ?= mx)%positive;
    rewrite (Z.compare_antisym ey ex), (Pos.compare_antisym my mx);
    destruct (ey ?= ex)%Z; cbn; try reflexivity;
    destruct (my ?= mx)%positive; reflexivity.
Qed.

Lemma SFleb_of_not_ltb x y :
  x ≠ S754_nan → y ≠ S754_nan → SFltb y x = false → SFleb x y = true.
Proof.
  intros Hx Hy. unfold SFltb, SFleb. rewrite (SFcompare_antisym x y).
  destruct (SFcompare y x) as [[]|] eqn:E; cbn; try done.
  destruct x, y; try done; cbn in E; repeat case_match; done.
Qed.

Lemma ClipFunctor_cases x :
  ClipFunctor x = F32.of_Z 0 ∨ ClipFunctor x = F32.of_Z 1
  ∨ (ClipFunctor x = x ∧ SFltb x (F32.of_Z 0) = false
     ∧ SFltb (F32.of_Z 1) x = false).
Proof.
  unfold ClipFunctor, std_min, std_max.
  change (d2f (F64.of_Z 0)) with (F32.of_Z 0).
  change (d2f (F64.of_Z 1)) with (F32.of_Z 1).
  destruct (SFltb x (F32.of_Z 0)) eqn:E0.
  - left. done.
  - destruct (SFltb (F32.of_Z 1) x) eqn:E1; auto.
Qed.

(** C9, as the code has it.  [ClipFunctor] is idempotent on every value, and
    [0 <= ClipFunctor c <= 1] for every [c] that is a number; NaN is left
    as it is. *)
Theorem clip_idempotent_range c :
  ClipFunctor (ClipFunctor c) = ClipFunctor c
  ∧ (c ≠ S754_nan →
     SFleb (F32.of_Z 0) (ClipFunctor c) = true
     ∧ SFleb (ClipFunctor c) (F32.of_Z 1) = true)
  ∧ ClipFunctor S754_nan = S754_nan.
Proof.
  split; [|split; [|done]].
  - destruct (ClipFunctor_cases c) as [-> | [-> | (Hc & H0 & H1)]]; [done..|].
    rewrite Hc. exact Hc.
  - intros Hnan.
    destruct (ClipFunctor_cases c) as [-> | [-> | (-> & H0 & H1)]]; [done..|].
    split; apply SFleb_of_not_ltb; done.
Qed.

(** the range fails at NaN: [ClipFunctor] returns NaN, which is not [>= 0] *)
Lemma clip_nan_not_in_range :
  ¬ (∀ c, ClipFunctor (ClipFunctor c) = ClipFunctor c
          ∧ SFleb (F32.of_Z 0) (ClipFunctor c) = true
          ∧ SFleb (ClipFunctor c) (F32.of_Z 1) = true).
Proof. intros H. destruct (H S754_nan) as (_ & H0 & _). discriminate H0. Qed.

(** ** The ratios that are not within [eps] of 1 *)

Lemma prec32_pos : (0 < F32.prec)%Z. Proof. done. Qed.
Lemma prec64_pos : (0 < F64.prec)%Z. Proof. done. Qed.

Lemma f2d_convert x : f2d x = convert F64.prec F64.emax x.
Proof. done. Qed.

Lemma d2f_convert x : d2f x = convert F32.prec F32.emax x.
Proof. done. Qed.

Lemma f2d_num x :
  is_num x = true -> F64.valid (f2d x) = true /\ is_num (f2d x) = true.
Proof. apply (convert_num F64.prec F64.emax prec64_pos). Qed.

Lemma d2f_num x :
  is_num x = true -> F32.valid (d2f x) = true /\ is_num (d2f x) = true.
Proof. apply (convert_num F32.prec F32.emax prec32_pos). Qed.

Lemma f2d_mono x y :
  is_num x = true -> is_num y = true -> xle (val x) (val y) ->
  xle (val (f2d x)) (val (f2d y)).
Proof. apply (convert_mono F64.prec F64.emax prec64_pos). Qed.

Lemma d2f_mono x y :
  is_num x = true -> is_num y = true -> xle (val x) (val y) ->
  xle (val (d2f x)) (val (d2f y)).
Proof. apply (convert_mono F32.prec F32.emax prec32_pos). Qed.

Lemma SFabs_valid prec emax x :
  valid_binary prec emax (SFabs x) = valid_binary prec emax x.
Proof. destruct x; done. Qed.

(** [|z| >= c] for a positive finite [c] *)
Lemma abs_ge prec emax (Hprec : (0 < prec)%Z) c z :
  valid_binary prec emax z = true -> is_num z = true ->
  valid_binary prec emax c = true -> is_fin c = true -> (0 < Qval c)%Q ->
  xle (val c) (val z) \/ xle (val z) (val (SFopp c)) ->
  SFltb (SFabs z) c = false.
Proof.
  intros Vz Nz Vc Fc Hc H.
  assert (Nc : is_num c = true) by (destruct c; done).
  apply (SFltb_val prec emax Hprec);
    [by rewrite SFabs_valid|done|by destruct z|done|].
  rewrite (val_fin c Fc) in *.
  destruct H as [H|H].
  - destruct z as [sz|[]| |[] mz ez]; try done; cbn [SFabs val Qval xle] in *;
      try lra.
    pose proof (mant_pos mz ez). cbn [cond_Zopp] in *.
    rewrite inject_Z_opp in H. lra.
  - apply val_opp_le in H.
    assert (E : SFopp (SFopp c) = c) by (destruct c as [[]|[]| |[]]; done).
    rewrite E, (val_fin c Fc) in H.
    destruct z as [sz|[]| |[] mz ez]; try done;
      cbn [SFabs SFopp negb val Qval xle] in *; try lra.
    pose proof (mant_pos mz ez). cbn [cond_Zopp] in *.
    rewrite inject_Z_opp in H. lra.
Qed.

Lemma lit_1e_6_eq : lit_1e_6 = S754_finite false 4722366482869645 (-72).
Proof. by vm_compute. Qed.

Lemma SFleb_xle64 x y :
  F64.valid x = true -> F64.valid y = true ->
  is_num x = true -> is_num y = true ->
  SFleb x y = true -> xle (val x) (val y).
Proof. intros. by apply (SFleb_val F64.prec F64.emax prec64_pos). Qed.

Lemma SFleb_xle32 x y :
  F32.valid x = true -> F32.valid y = true ->
  is_num x = true -> is_num y = true ->
  SFleb x y = true -> xle (val x) (val y).
Proof. intros. by apply (SFleb_val F32.prec F32.emax prec32_pos). Qed.

Lemma minus_one_num r :
  is_num r = true ->
  F64.valid (minus_one r) = true /\ is_num (minus_one r) = true.
Proof.
  intros Nr. unfold minus_one.
  destruct (f2d_num r Nr) as [Vy Ny].
  apply (SFsub_num F64.prec F64.emax prec64_pos); done.
Qed.

Lemma minus_one_mono r1 r2 :
  is_num r1 = true -> is_num r2 = true -> xle (val r1) (val r2) ->
  xle (val (minus_one r1)) (val (minus_one r2)).
Proof.
  intros N1 N2 H. unfold minus_one.
  destruct (f2d_num r1 N1) as [V1 N1'].
  destruct (f2d_num r2 N2) as [V2 N2'].
  apply (SFsub_mono_l F64.prec F64.emax prec64_pos); try done.
  apply f2d_mono; done.
Qed.

Lemma is_unit_ratio_minus_one r :
  is_unit_ratio r = SFltb (SFabs (minus_one r)) lit_1e_6.
Proof. done. Qed.

(** no ratio from [ratio_above] upwards passes the test of the generator *)
Lemma is_unit_lower r :
  is_num r = true -> xle (val ratio_above) (val r) -> is_unit_ratio r = false.
Proof.
  intros Nr H. rewrite is_unit_ratio_minus_one.
  destruct (minus_one_num r Nr) as [Vz Nz].
  pose proof (minus_one_mono ratio_above r eq_refl Nr H) as Hz.
  apply (abs_ge F64.prec F64.emax prec64_pos);
    [done|done|by vm_compute|by vm_compute| |].
  - rewrite lit_1e_6_eq. apply mant_pos.
  - left. eapply xle_trans; [|exact Hz].
    apply SFleb_xle64; by vm_compute.
Qed.

(** nor any ratio up to [ratio_below] *)
Lemma is_unit_upper r :
  is_num r = true -> xle (val r) (val ratio_below) -> is_unit_ratio r = false.
Proof.
  intros Nr H. rewrite is_unit_ratio_minus_one.
  destruct (minus_one_num r Nr) as [Vz Nz].
  pose proof (minus_one_mono r ratio_below Nr eq_refl H) as Hz.
  apply (abs_ge F64.prec F64.emax prec64_pos);
    [done|done|by vm_compute|by vm_compute| |].
  - rewrite lit_1e_6_eq. apply mant_pos.
  - right. eapply xle_trans; [exact Hz|].
    apply SFleb_xle64; by vm_compute.
Qed.

Lemma Qdiv_nonpos a b : (0 <= a)%Q -> (b < 0)%Q -> (a / b <= 0)%Q.
Proof.
  intros Ha Hb.
  assert (H : (a / b == - (a / - b))%Q) by (field; lra).
  rewrite H.
  assert (0 <= a / - b)%Q by (apply Qle_shift_div_l; lra). lra.
Qed.

Lemma one64_val : (Qval (F64.of_Z 1) == 1)%Q.
Proof. by vm_compute. Qed.

(** the reciprocal of a ratio from [ratio_above] upwards is at most
    the reciprocal of [ratio_above] *)
Lemma reciprocal_upper ar :
  is_num ar = true -> xle (val ratio_above) (val ar) ->
  is_num (reciprocal ar) = true
  /\ xle (val (reciprocal ar)) (val (reciprocal ratio_above)).
Proof.
  intros Nr H. unfold reciprocal.
  destruct (f2d_num ar Nr) as [Vy Ny].
  pose proof (f2d_mono ratio_above ar eq_refl Nr H) as Hy.
  assert (Ec : f2d ratio_above = S754_finite false 4503604459208704 (-52))
    by (by vm_compute).
  rewrite Ec in *.
  pose proof (mant_pos 4503604459208704 (-52)) as Hc.
  destruct (f2d ar) as [sy|[]| |[] my ey] eqn:Ey.
  - exfalso. cbn [val Qval xle cond_Zopp] in Hy. lra.
  - done.
  - split; [done|]. by vm_compute.
  - done.
  - exfalso. cbn [val Qval xle cond_Zopp] in Hy. rewrite inject_Z_opp in Hy.
    pose proof (mant_pos my ey). lra.
  - destruct (SFdiv_num F64.prec F64.emax prec64_pos (F64.of_Z 1) false my ey
                eq_refl) as [Vq Nq].
    split.
    + apply d2f_num. done.
    + apply d2f_mono; [done|by vm_compute|].
      apply (SFdiv_anti F64.prec F64.emax prec64_pos); [done| |done].
      rewrite one64_val. lra.
Qed.

(** the reciprocal of a ratio up to [ratio_below] does not pass the test *)
Lemma reciprocal_of_small ar :
  is_num ar = true -> xle (val ar) (val ratio_below) ->
  is_unit_ratio (reciprocal ar) = false.
Proof.
  intros Nr H. unfold reciprocal.
  destruct (f2d_num ar Nr) as [Vy Ny].
  pose proof (f2d_mono ar ratio_below Nr eq_refl H) as Hy.
  assert (Ec : f2d ratio_below = S754_finite false 9007190127935488 (-53))
    by (by vm_compute).
  rewrite Ec in *.
  destruct (f2d ar) as [[]|[]| |[] my ey] eqn:Ey.
  - by vm_compute.
  - by vm_compute.
  - by vm_compute.
  - done.
  - done.
  - destruct (SFdiv_num F64.prec F64.emax prec64_pos (F64.of_Z 1) true my ey
                eq_refl) as [Vq Nq].
    apply is_unit_upper.
    + apply d2f_num. done.
    + apply (xle_trans _ (val (d2f (S754_zero false)))); [|by vm_compute].
      apply d2f_mono; [done..|].
      apply (Rnd_neg F64.prec F64.emax prec64_pos
               (Qval (F64.of_Z 1) / Qval (S754_finite true my ey))).
      * apply SFdiv_Rnd; done.
      * apply Qdiv_nonpos; [rewrite one64_val; lra|].
        pose proof (mant_pos my ey). cbn [Qval cond_Zopp].
        rewrite inject_Z_opp. lra.
  - destruct (SFdiv_num F64.prec F64.emax prec64_pos (F64.of_Z 1) false my ey
                eq_refl) as [Vq Nq].
    apply is_unit_lower.
    + apply d2f_num. done.
    + apply (xle_trans _ (val (reciprocal ratio_below))).
      { apply SFleb_xle32; by vm_compute. }
      unfold reciprocal. rewrite Ec.
      apply d2f_mono; [by vm_compute|done|].
      apply (SFdiv_anti F64.prec F64.emax prec64_pos); [done| |done].
      rewrite one64_val. lra.
Qed.

Lemma all_within_spec e a n m :
  all_within e a n = true -> (a <= Zpos m < a + Z.of_nat n)%Z ->
  within_eps (S754_finite false m e) (F32.of_Z 1) = true.
Proof.
  intros H Hm. unfold all_within in H. rewrite forallb_forall in H.
  specialize (H (Z.to_nat (Zpos m - a))).
  replace (a + Z.of_nat (Z.to_nat (Zpos m - a)))%Z with (Zpos m) in H by lia.
  apply H, in_seq. lia.
Qed.

(** a valid float strictly between [ratio_below] and [ratio_above] is
    within [eps] of 1 *)
Lemma between_within ar :
  F32.valid ar = true -> is_num ar = true ->
  SFleb ratio_above ar = false -> SFleb ar ratio_below = false ->
  within_eps ar (F32.of_Z 1) = true.
Proof.
  intros V N Ha Hb.
  destruct ar as [s|[]| |[] m e]; try done.
  cbn [F32.valid valid_binary] in V.
  unfold F32.valid in V. cbn [valid_binary] in V.
  pose proof (bounded_digits F32.prec F32.emax m e V) as (Hd & He & Hn).
  pose proof (Zdigits2_bounds (Zpos m) ltac:(lia)) as [Hl Hu].
  unfold SFleb, ratio_above, ratio_below in Ha, Hb. cbn [SFcompare] in Ha, Hb.
  rewrite Pos.compare_cont_spec in Ha, Hb. cbn [Pos.switch_Eq] in Ha, Hb.
  assert (Hcase : (e = -23 /\ Zpos m < 8388617)%Z \/ (e = -24 /\ 16777199 < Zpos m)%Z).
  { destruct (Z.compare_spec (-23) e) as [E1|E1|E1];
      destruct (Z.compare_spec e (-24)) as [E2|E2|E2]; try done; try lia.
    - left. split; [lia|]. subst e.
      destruct (Pos.compare_spec 8388617 m); try done; lia.
    - right. split; [lia|]. subst e.
      destruct (Pos.compare_spec m 16777199); try done; lia. }
  change (emin F32.prec F32.emax) with (-149)%Z in *.
  change F32.prec with 24%Z in *.
  destruct Hcase as [[-> Hm]|[-> Hm]].
  - rewrite Hn in Hl by lia.
    apply (all_within_spec (-23) 8388608 9); [by vm_compute|].
    change (2 ^ (24 - 1))%Z with 8388608%Z in Hl. lia.
  - assert (Zpos m < 2 ^ 24)%Z.
    { eapply Z.lt_le_trans; [exact Hu|]. apply Z.pow_le_mono_r; lia. }
    apply (all_within_spec (-24) 16777200 16); [by vm_compute|].
    change (2 ^ 24)%Z with 16777216%Z in *. lia.
Qed.

(** a ratio that the expansion keeps next to 1.0 is not skipped by the
    generator, and neither is its reciprocal *)
Lemma unit_gap ar :
  F32.valid ar = true -> within_eps ar (F32.of_Z 1) = false ->
  is_unit_ratio ar = false /\ is_unit_ratio (reciprocal ar) = false.
Proof.
  intros V Hw.
  destruct (is_num ar) eqn:N; [|destruct ar; try done; by vm_compute].
  destruct (SFleb ratio_above ar) eqn:Ha.
  - apply SFleb_xle32 in Ha; [|done..].
    split; [by apply is_unit_lower|].
    destruct (reciprocal_upper ar N Ha) as [Nr Hr].
    apply is_unit_upper; [done|].
    eapply xle_trans; [exact Hr|]. apply SFleb_xle32; by vm_compute.
  - destruct (SFleb ar ratio_below) eqn:Hb.
    + apply SFleb_xle32 in Hb; [|done..].
      split; [by apply is_unit_upper|by apply reciprocal_of_small].
    + rewrite between_within in Hw; done.
Qed.

(** ** The two corners of a side *)

Lemma of_Z64_Rnd z : Rnd F64.prec F64.emax (inject_Z z) (F64.of_Z z).
Proof.
  eapply Rnd_ext; [|apply (binary_normalize_Rnd F64.prec F64.emax prec64_pos)].
  change (pow2 0) with 1%Q. ring.
Qed.

(** an integer between 1 and 2^63 is a positive finite [double] *)
Lemma of_Z64_finite z :
  (1 <= z <= 2 ^ 63)%Z -> exists m e, F64.of_Z z = S754_finite false m e.
Proof.
  intros Hz.
  pose proof (binary_normalize_nonneg F64.prec F64.emax z 0 ltac:(lia)) as Hs.
  fold (F64.of_Z z) in Hs.
  pose proof (Rnd_mono F64.prec F64.emax prec64_pos _ _ _ _
                (of_Z64_Rnd 1) (of_Z64_Rnd z)) as Hl.
  pose proof (Rnd_mono F64.prec F64.emax prec64_pos _ _ _ _
                (of_Z64_Rnd z) (of_Z64_Rnd (2 ^ 63))) as Hu.
  rewrite <- Zle_Qle in Hl, Hu. specialize (Hl ltac:(lia)). specialize (Hu ltac:(lia)).
  assert (E1 : F64.of_Z 1 = S754_finite false 4503599627370496 (-52))
    by (by vm_compute).
  assert (E2 : F64.of_Z (2 ^ 63) = S754_finite false 4503599627370496 11)
    by (by vm_compute).
  rewrite E1 in Hl. rewrite E2 in Hu.
  destruct (F64.of_Z z) as [s|[]| |[] m e]; [|done..|eauto].
  exfalso. cbn [val Qval xle cond_Zopp] in Hl.
  pose proof (mant_pos 4503599627370496 (-52)). lra.
Qed.

Lemma finite32_upper x : finite32 x = true -> xle (val x) (val max_float32).
Proof.
  unfold finite32. intros H. apply andb_prop in H as [F V].
  pose proof (mant_pos 16777215 104) as Hmax.
  destruct x as [s| | |s m e]; [|done..|].
  - unfold max_float32. cbn [val Qval xle cond_Zopp]. lra.
  - unfold F32.valid in V. cbn [valid_binary] in V.
    pose proof (bounded_digits F32.prec F32.emax m e V) as (Hd & _ & _).
    unfold bounded in V. apply andb_prop in V as [_ He]. apply Z.leb_le in He.
    pose proof (Zdigits2_bounds (Zpos m) ltac:(lia)) as [_ Hu].
    assert (Hm : (Zpos m <= 16777215)%Z).
    { assert (2 ^ Zdigits2 (Zpos m) <= 2 ^ 24)%Z
        by (apply Z.pow_le_mono_r; [lia|exact Hd]).
      change (2 ^ 24)%Z with 16777216%Z in *. lia. }
    assert (Hv : (inject_Z (Zpos m) * pow2 e
                  <= inject_Z 16777215 * pow2 104)%Q).
    { apply Qmult_le_compat_nonneg.
      - split; [done|]. by rewrite <- Zle_Qle.
      - split; [apply Qlt_le_weak, pow2_pos|]. apply pow2_le. exact He. }
    pose proof (mant_pos m e).
    unfold max_float32. cbn [val Qval xle].
    destruct s; cbn [cond_Zopp]; rewrite ?inject_Z_opp; lra.
Qed.

Lemma SFopp_involutive x : SFopp (SFopp x) = x.
Proof. destruct x as [[]|[]| |[]]; done. Qed.

Lemma finite32_bound x :
  finite32 x = true ->
  xle (val (SFopp max_float32)) (val x) /\ xle (val x) (val max_float32).
Proof.
  intros H. split; [|by apply finite32_upper].
  rewrite <- (SFopp_involutive x). apply val_opp_le, finite32_upper.
  destruct x; done.
Qed.

(** widening keeps a finite [float] finite *)
Lemma f2d_finite x :
  finite32 x = true -> is_fin (f2d x) = true /\ F64.valid (f2d x) = true.
Proof.
  intros H. destruct (finite32_bound x H) as [Hl Hu].
  assert (N : is_num x = true).
  { unfold finite32 in H. apply andb_prop in H as [F _]. by destruct x. }
  destruct (f2d_num x N) as [V N'].
  apply (f2d_mono (SFopp max_float32) x eq_refl N) in Hl.
  apply (f2d_mono x max_float32 N eq_refl) in Hu.
  split; [|done].
  destruct (f2d x) as [|[]| |]; try done.
Qed.

Lemma two64_eq : F64.of_Z 2 = S754_finite false 4503599627370496 (-51).
Proof. by vm_compute. Qed.

(** [box / 2.] for a box side with the sign bit clear *)
Lemma half_side bw :
  has_sign false bw = true ->
  has_sign false (F64.div (f2d bw) (F64.of_Z 2)) = true
  /\ F64.valid (F64.div (f2d bw) (F64.of_Z 2)) = true.
Proof.
  intros Hs. rewrite two64_eq.
  pose proof (convert_has_sign F64.prec F64.emax false bw Hs) as Hy.
  rewrite <- f2d_convert in Hy. split.
  - apply SFdiv_has_sign; [done|done|eauto].
  - destruct (is_fin (f2d bw)) eqn:F.
    + apply (SFdiv_num F64.prec F64.emax prec64_pos). done.
    + destruct (f2d bw) as [|[]| |]; done.
Qed.

(** [center - half <= center + half] *)
Lemma sub_le_add A B :
  F64.valid A = true -> is_fin A = true ->
  F64.valid B = true -> has_sign false B = true ->
  F64.valid (F64.sub A B) = true /\ is_num (F64.sub A B) = true
  /\ F64.valid (F64.add A B) = true /\ is_num (F64.add A B) = true
  /\ xle (val (F64.sub A B)) (val (F64.add A B)).
Proof.
  intros VA FA VB SB.
  destruct (is_fin B) eqn:FB.
  - pose proof (SFsub_Rnd F64.prec F64.emax prec64_pos A B VA VB FA FB) as Rs.
    pose proof (SFadd_Rnd F64.prec F64.emax prec64_pos A B VA VB FA FB) as Ra.
    destruct (Rnd_valid F64.prec F64.emax prec64_pos _ _ Rs) as [? ?].
    destruct (Rnd_valid F64.prec F64.emax prec64_pos _ _ Ra) as [? ?].
    repeat split; try done.
    apply (Rnd_mono F64.prec F64.emax prec64_pos _ _ _ _ Rs Ra).
    apply has_sign_nonneg in SB. rewrite (val_fin B FB) in SB. cbn in SB. lra.
  - destruct B as [|[]| |]; try done.
    destruct A as [| | |]; done.
Qed.

Lemma Qdiv_mono a b c : (0 < c)%Q -> (a <= b)%Q -> (a / c <= b / c)%Q.
Proof.
  intros Hc H. unfold Qdiv. apply Qmult_le_compat_r; [done|].
  apply Qinv_le_0_compat. lra.
Qed.

(** division by a positive finite number is monotone *)
Lemma SFdiv_mono_l U V m e :
  is_num U = true -> is_num V = true -> xle (val U) (val V) ->
  is_num (F64.div U (S754_finite false m e)) = true
  /\ is_num (F64.div V (S754_finite false m e)) = true
  /\ xle (val (F64.div U (S754_finite false m e)))
         (val (F64.div V (S754_finite false m e))).
Proof.
  intros NU NV H.
  assert (Hn : forall X, is_num X = true ->
               is_num (F64.div X (S754_finite false m e)) = true).
  { intros X NX. destruct (is_fin X) eqn:F.
    - apply (SFdiv_num F64.prec F64.emax prec64_pos). done.
    - destruct X as [|[]| |]; done. }
  split; [auto|]. split; [auto|].
  destruct (is_fin U) eqn:FU, (is_fin V) eqn:FV.
  - apply (Rnd_mono F64.prec F64.emax prec64_pos _ _ _ _
             (SFdiv_Rnd F64.prec F64.emax prec64_pos U false m e FU)
             (SFdiv_Rnd F64.prec F64.emax prec64_pos V false m e FV)).
    rewrite !val_fin in H by done.
    apply Qdiv_mono; [apply mant_pos|done].
  - destruct V as [|[]| |]; try done.
    + destruct U as [|[]| |]; done.
    + unfold F64.div at 2. cbn [SFdiv xorb val].
      destruct (val (F64.div U _)); done.
  - destruct U as [|[]| |]; try done.
    destruct V as [|[]| |]; done.
  - destruct U as [|[]| |], V as [|[]| |]; done.
Qed.

(** [xmin <= xmax], and the same for [y] *)
Lemma coord_le center box img :
  finite32 center = true -> has_sign false box = true ->
  (1 <= Z.of_nat img <= 2 ^ 63)%Z ->
  F32.valid (coord_min center box img) = true
  /\ is_num (coord_min center box img) = true
  /\ F32.valid (coord_max center box img) = true
  /\ is_num (coord_max center box img) = true
  /\ xle (val (coord_min center box img)) (val (coord_max center box img)).
Proof.
  intros Hc Hb Hi. unfold coord_min, coord_max.
  destruct (f2d_finite center Hc) as [FA VA].
  destruct (half_side box Hb) as [SB VB].
  destruct (sub_le_add _ _ VA FA VB SB) as (VU & NU & VV & NV & HUV).
  destruct (of_Z64_finite _ Hi) as (m & e & ->).
  destruct (SFdiv_mono_l _ _ m e NU NV HUV) as (N1 & N2 & H).
  destruct (d2f_num _ N1) as [? ?]. destruct (d2f_num _ N2) as [? ?].
  repeat split; try done. by apply d2f_mono.
Qed.



(** ** The operations on [float] return binary32 values *)








(** ** The priors of a cell have sides with the sign bit clear *)

Lemma of_Z32_has_sign z : (0 <= z)%Z -> has_sign false (F32.of_Z z) = true.
Proof. apply binary_normalize_nonneg. Qed.

Lemma of_Z64_has_sign z : (0 <= z)%Z -> has_sign false (F64.of_Z z) = true.
Proof. apply binary_normalize_nonneg. Qed.

Lemma d2f_has_sign x : has_sign false x = true -> has_sign false (d2f x) = true.
Proof. apply convert_has_sign. Qed.

Lemma f2d_has_sign x : has_sign false x = true -> has_sign false (f2d x) = true.
Proof. apply convert_has_sign. Qed.

Lemma max_side_has_sign a b :
  (0 <= int_mul a b)%Z -> has_sign false (max_side a b) = true.
Proof.
  intros H. unfold max_side.
  by apply d2f_has_sign, SFsqrt_has_sign, of_Z64_has_sign.
Qed.

Lemma ratio_width_has_sign a r :
  (1 <= a <= 2 ^ 63)%Z -> has_sign false r = true ->
  has_sign false (ratio_width a r) = true.
Proof.
  intros Ha Hr. unfold ratio_width.
  destruct (of_Z64_finite a Ha) as (m & e & ->).
  by apply d2f_has_sign, SFmul_has_sign, SFsqrt_has_sign, f2d_has_sign.
Qed.

Lemma ratio_height_has_sign a r :
  (1 <= a <= 2 ^ 63)%Z -> has_sign false r = true ->
  has_sign false (ratio_height a r) = true.
Proof.
  intros Ha Hr. unfold ratio_height.
  destruct (of_Z64_finite a Ha) as (m & e & E).
  apply d2f_has_sign, SFdiv_has_sign.
  - rewrite E. done.
  - by apply SFsqrt_has_sign, f2d_has_sign.
  - left. eauto.
Qed.

Lemma reciprocal_has_sign r :
  has_sign false r = true -> has_sign false (reciprocal r) = true.
Proof.
  intros Hr. unfold reciprocal. apply d2f_has_sign, SFdiv_has_sign.
  - done.
  - by apply f2d_has_sign.
  - left. by exists 4503599627370496%positive, (-52)%Z.
Qed.

Lemma expand_has_sign input flip :
  Forall (fun r => has_sign false r = true) input ->
  Forall (fun r => has_sign false r = true) (ExpandAspectRatios input flip).
Proof.
  induction input as [|ar input IH] using rev_ind; intros H.
  - by repeat constructor.
  - apply Forall_app in H as [H1 H2]. apply Forall_inv in H2.
    rewrite expand_snoc. unfold expand_step.
    destruct (already_exist ar _); [auto|].
    destruct flip; repeat (apply Forall_app; split); auto;
      repeat constructor; auto using reciprocal_has_sign.
Qed.

Section Sides.
Context (c : config) (ars : list float).
Hypothesis Hmin : Forall (fun z => (0 < z < 2 ^ 31)%Z) (min_sizes c).
Hypothesis Hmax : Forall (fun z => (0 < z < 2 ^ 31)%Z) (max_sizes c).
Hypothesis Hprod : forall s,
  (nth s (min_sizes c) 0 * nth s (max_sizes c) 0 < 2 ^ 31)%Z.
Hypothesis Hars : Forall (fun r => has_sign false r = true) ars.

Lemma nth_nonneg (l : list Z) s :
  Forall (fun z => (0 < z < 2 ^ 31)%Z) l -> (0 <= nth s l 0 < 2 ^ 31)%Z.
Proof.
  intros H. destruct (nth_in_or_default s l 0%Z) as [Hin| ->]; [|lia].
  rewrite List.Forall_forall in H. apply H in Hin. lia.
Qed.

Lemma size_priors_has_sign s p :
  s < length (min_sizes c) -> In p (size_priors c ars s) ->
  has_sign false (fst p) = true /\ has_sign false (snd p) = true.
Proof.
  intros Hs Hp.
  assert (Ha : (0 < nth s (min_sizes c) 0 < 2 ^ 31)%Z).
  { rewrite List.Forall_forall in Hmin. apply Hmin, nth_In. done. }
  pose proof (nth_nonneg (max_sizes c) s Hmax) as Hb.
  specialize (Hprod s).
  unfold size_priors in Hp. rewrite !in_app_iff in Hp.
  destruct Hp as [Hp|[Hp|Hp]].
  - destruct Hp as [<-|[]]. cbn. split; apply of_Z32_has_sign; lia.
  - destruct (0 <? length (max_sizes c)); [|done].
    destruct Hp as [<-|[]]. cbn.
    assert (0 <= int_mul (nth s (min_sizes c) 0) (nth s (max_sizes c) 0))%Z.
    { unfold int_mul.
      rewrite Z.mod_small by (change (2 ^ 31)%Z with 2147483648%Z in *; nia).
      nia. }
    split; by apply max_side_has_sign.
  - apply in_map_iff in Hp as (r & <- & Hr).
    unfold non_unit in Hr. apply list_elem_of_In, list_elem_of_filter in Hr.
    destruct Hr as [_ Hr]. apply list_elem_of_In in Hr.
    rewrite List.Forall_forall in Hars. apply Hars in Hr. cbn.
    split; [apply ratio_width_has_sign|apply ratio_height_has_sign];
      try done; change (2 ^ 63)%Z with 9223372036854775808%Z;
      change (2 ^ 31)%Z with 2147483648%Z in *; lia.
Qed.

Lemma cell_priors_has_sign i p :
  cell_priors c ars !! i = Some p ->
  has_sign false (fst p) = true /\ has_sign false (snd p) = true.
Proof.
  intros Hi. apply list_elem_of_lookup_2, list_elem_of_In in Hi.
  unfold cell_priors in Hi. apply in_flat_map in Hi as (s & Hs & Hp).
  apply in_seq in Hs. apply (size_priors_has_sign s); [lia|done].
Qed.
End Sides.

(** ** The sides of the priors are binary32 values *)





Section SidesValid.
Context (c : config) (ars : list float).
Hypothesis Hmin : Forall (fun z => (0 < z < 2 ^ 31)%Z) (min_sizes c).
Hypothesis Hmax : Forall (fun z => (0 < z < 2 ^ 31)%Z) (max_sizes c).
Hypothesis Hprod : forall s,
  (nth s (min_sizes c) 0 * nth s (max_sizes c) 0 < 2 ^ 31)%Z.
Hypothesis Hars : Forall (fun r => has_sign false r = true) ars.


End SidesValid.

(** ** C1: the number of priors written in a cell *)

Lemma expand_tail_non_unit input flip :
  Forall (fun r => F32.valid r = true) input ->
  Forall (fun r => is_unit_ratio r = false)
         (tl (ExpandAspectRatios input flip)).
Proof.
  induction input as [|ar input IH] using rev_ind; intros H.
  - constructor.
  - apply Forall_app in H as [H1 H2]. apply Forall_inv in H2.
    specialize (IH H1). rewrite expand_snoc.
    destruct (expand_head input flip) as [rest E]. rewrite E in IH |- *.
    unfold expand_step.
    destruct (already_exist ar (d2f (F64.of_Z 1) :: rest)) eqn:Ea; [done|].
    cbn [already_exist] in Ea.
    destruct (within_eps ar (d2f (F64.of_Z 1))) eqn:Ew; [done|].
    destruct (unit_gap ar H2 Ew) as [U1 U2]. cbn [tl] in IH.
    destruct flip; cbn [app tl]; repeat (apply Forall_app; split); auto.
Qed.

Lemma filter_all {A} (P : A -> Prop) `{forall x, Decision (P x)} l :
  Forall P l -> filter P l = l.
Proof.
  induction 1 as [|x l Hx Hl IH]; [done|].
  rewrite filter_cons, decide_True, IH by done. done.
Qed.

Lemma non_unit_expand input flip :
  Forall (fun r => F32.valid r = true) input ->
  non_unit (ExpandAspectRatios input flip) = tl (ExpandAspectRatios input flip).
Proof.
  intros H. apply (expand_tail_non_unit input flip) in H.
  destruct (expand_head input flip) as [rest E]. rewrite E in H |- *.
  unfold non_unit. rewrite filter_cons, decide_False by (by vm_compute).
  by apply filter_all.
Qed.

Lemma length_flat_map_const {A B} (f : A -> list B) k l :
  (forall x, length (f x) = k) -> length (flat_map f l) = length l * k.
Proof.
  intros H. induction l as [|x l IH]; [done|].
  cbn [flat_map]. rewrite length_app, IH, H. cbn [length]. lia.
Qed.

Lemma length_cell_priors c ars :
  length (cell_priors c ars)
  = length (min_sizes c)
    * (1 + (if 0 <? length (max_sizes c) then 1 else 0) + length (non_unit ars)).
Proof.
  unfold cell_priors. erewrite length_flat_map_const; [by rewrite length_seq|].
  intros s. unfold size_priors. rewrite !length_app, length_map.
  destruct (0 <? length (max_sizes c)); cbn [length]; lia.
Qed.



(** ** C10: the corners of a box are ordered *)

Lemma ClipFunctor_eq x :
  ClipFunctor x
  = if SFltb x (F32.of_Z 0) then F32.of_Z 0
    else if SFltb (F32.of_Z 1) x then F32.of_Z 1 else x.
Proof.
  unfold ClipFunctor, std_min, std_max.
  change (d2f (F64.of_Z 0)) with (F32.of_Z 0).
  change (d2f (F64.of_Z 1)) with (F32.of_Z 1).
  destruct (SFltb x (F32.of_Z 0)); done.
Qed.

Lemma SFltb_xle32 x y :
  F32.valid x = true -> F32.valid y = true ->
  is_num x = true -> is_num y = true ->
  SFltb x y = false <-> xle (val y) (val x).
Proof. apply (SFltb_val F32.prec F32.emax prec32_pos). Qed.

Lemma zero_le_one : xle (val (F32.of_Z 0)) (val (F32.of_Z 1)).
Proof. apply SFleb_xle32; by vm_compute. Qed.

(** the clamp is monotone on numbers *)
Lemma ClipFunctor_mono x y :
  F32.valid x = true -> F32.valid y = true ->
  is_num x = true -> is_num y = true ->
  xle (val x) (val y) ->
  SFleb (ClipFunctor x) (ClipFunctor y) = true.
Proof.
  intros Vx Vy Nx Ny H. rewrite !ClipFunctor_eq.
  pose proof (SFltb_xle32 x (F32.of_Z 0) Vx eq_refl Nx eq_refl) as X0.
  pose proof (SFltb_xle32 (F32.of_Z 1) x eq_refl Vx eq_refl Nx) as X1.
  pose proof (SFltb_xle32 y (F32.of_Z 0) Vy eq_refl Ny eq_refl) as Y0.
  pose proof (SFltb_xle32 (F32.of_Z 1) y eq_refl Vy eq_refl Ny) as Y1.
  pose proof zero_le_one as H01.
  assert (T : forall a b c, xle a b -> xle b c -> xle a c)
    by (intros; eapply xle_trans; eauto).
  destruct (SFltb x (F32.of_Z 0)) eqn:Ex0;
    [|destruct (SFltb (F32.of_Z 1) x) eqn:Ex1];
    (destruct (SFltb y (F32.of_Z 0)) eqn:Ey0;
     [|destruct (SFltb (F32.of_Z 1) y) eqn:Ey1]);
    apply (SFleb_val F32.prec F32.emax prec32_pos); try done;
    try apply xle_refl; try tauto.
  - exfalso. assert (xle (val (F32.of_Z 0)) (val y)) as A.
    { apply (T _ (val (F32.of_Z 1))); [done|]. apply (T _ (val x)); [|done].
      destruct (xle_total (val x) (val (F32.of_Z 1))) as [Hx|Hx]; [|done].
      apply X1 in Hx. done. }
    apply Y0 in A. done.
  - exfalso. assert (xle (val x) (val (F32.of_Z 1))) as A.
    { apply (T _ (val y)); [done|]. by apply Y1. }
    apply X1 in A. done.
  - exfalso. assert (xle (val (F32.of_Z 0)) (val y)) as A.
    { apply (T _ (val x)); [|done]. by apply X0. }
    apply Y0 in A. done.
Qed.

(** clipping keeps the set of written entries *)
Lemma Boxes_lookup c key :
  Boxes (PriorBoxOpKernel_Compute c) !! key
  = (if clip c then ClipFunctor else id) <$> generate c !! key.
Proof.
  cbn [PriorBoxOpKernel_Compute Boxes]. destruct (clip c).
  - unfold transform. by rewrite lookup_fmap.
  - by rewrite option_fmap_id.
Qed.







(** * Further properties of the code *)

(** ** ExpandAspectRatios: the shape of the output *)

Lemma expand_step_app flip output ar :
  expand_step flip output ar
  = output ++ (if already_exist ar output then []
               else ar :: (if flip then [reciprocal ar] else [])).
Proof.
  unfold expand_step. destruct (already_exist ar output).
  - by rewrite app_nil_r.
  - destruct flip; [|done]. by rewrite <- app_assoc.
Qed.

(** X1.  The output is 1.0 followed by the ratios that were kept, in the order
    of the input, each one followed by its reciprocal when [flip] is set: no
    other value is ever produced, and no ratio moves. *)
Theorem expand_structure input flip :
  exists kept,
    sublist kept input
    /\ ExpandAspectRatios input flip
       = F32.of_Z 1
         :: flat_map (fun ar => ar :: (if flip then [reciprocal ar] else []))
                     kept.
Proof.
  induction input as [|ar input IH] using rev_ind.
  - exists []. split; [constructor|done].
  - destruct IH as (kept & Hs & E).
    rewrite expand_snoc, expand_step_app.
    destruct (already_exist ar (ExpandAspectRatios input flip)).
    + exists kept. split; [by apply sublist_inserts_r|].
      by rewrite app_nil_r.
    + exists (kept ++ [ar]). split; [by apply sublist_app|].
      rewrite E, flat_map_app. cbn [flat_map]. by rewrite app_nil_r.
Qed.

(** X2.  The output is never empty and has at most one entry per input ratio,
    two with [flip], besides the leading 1.0. *)
Theorem expand_length_bounds input flip :
  1 <= length (ExpandAspectRatios input flip)
       <= 1 + (if flip then 2 else 1) * length input.
Proof.
  induction input as [|ar input IH] using rev_ind; [destruct flip; cbn; lia|].
  rewrite expand_snoc, expand_step_app, !length_app.
  destruct (already_exist ar (ExpandAspectRatios input flip)), flip;
    cbn [length]; lia.
Qed.

(** X3.  More input only appends: the expansion of a list is a prefix of the
    expansion of any list that extends it. *)
Theorem expand_prefix input more flip :
  ExpandAspectRatios input flip
  `prefix_of` ExpandAspectRatios (input ++ more) flip.
Proof.
  induction more as [|ar more IH] using rev_ind.
  - by rewrite app_nil_r.
  - rewrite app_assoc, expand_snoc, expand_step_app.
    by apply prefix_app_r.
Qed.

(** X4.  A ratio within [eps] of 1.0 is dropped wherever it stands in the
    input: the expansion is that of the input without those ratios. *)
Theorem expand_absorbs_unit input flip :
  ExpandAspectRatios input flip
  = ExpandAspectRatios
      (filter (fun ar => within_eps ar (F32.of_Z 1) = false) input) flip.
Proof.
  induction input as [|ar input IH] using rev_ind; [done|].
  rewrite filter_app, expand_snoc, filter_cons, filter_nil.
  case_decide as Hw.
  - by rewrite expand_snoc, IH.
  - rewrite app_nil_r, <- IH.
    destruct (expand_head input flip) as [rest ->].
    unfold expand_step. cbn [already_exist].
    change (d2f (F64.of_Z 1)) with (F32.of_Z 1).
    by destruct (within_eps ar (F32.of_Z 1)).
Qed.

(** ** ExpandAspectRatios without [flip] *)

(** a ratio that is appended is not within [eps] of any earlier entry *)
Lemma expand_fresh input pre x post :
  ExpandAspectRatios input false = pre ++ x :: post ->
  pre <> [] -> already_exist x pre = false.
Proof.
  revert pre x post.
  induction input as [|ar input IH] using rev_ind; intros pre x post E Hpre.
  - destruct pre as [|p [|q pre]]; done.
  - rewrite expand_snoc, expand_step_app in E.
    destruct (already_exist ar (ExpandAspectRatios input false)) eqn:Ea.
    + rewrite app_nil_r in E. by eapply IH.
    + destruct post as [|z post _] using rev_ind.
      * apply app_inj_tail in E as [<- <-]. done.
      * rewrite app_comm_cons, app_assoc in E.
        apply app_inj_tail in E as [E _]. by eapply IH.
Qed.

(** X5.  Without [flip] no entry of the output is within [eps] of an earlier
    one, as the test of the expansion measures it. *)
Theorem expand_no_flip_spaced input i j x y :
  i < j ->
  ExpandAspectRatios input false !! i = Some x ->
  ExpandAspectRatios input false !! j = Some y ->
  within_eps y x = false.
Proof.
  intros Hij Hi Hj.
  destruct (list_elem_of_split_length _ _ _ Hj) as (pre & post & E & Hlen).
  assert (Hpre : pre <> []) by (destruct pre; [cbn in Hlen; lia|done]).
  pose proof (expand_fresh input pre y post E Hpre) as F.
  rewrite already_exist_existsb in F.
  rewrite E, lookup_app_l in Hi by lia.
  destruct (within_eps y x) eqn:W; [|done].
  assert (existsb (within_eps y) pre = true); [|congruence].
  apply existsb_exists. exists x. split; [|done].
  apply list_elem_of_In, list_elem_of_lookup. eauto.
Qed.

Lemma expand_keep_all l : forall acc,
  (forall l1 x l2, l = l1 ++ x :: l2 -> already_exist x (acc ++ l1) = false) ->
  fold_left (expand_step false) l acc = acc ++ l.
Proof.
  induction l as [|x l IH]; intros acc H; [by rewrite app_nil_r|].
  cbn [fold_left]. rewrite expand_step_app.
  pose proof (H [] x l eq_refl) as H0. rewrite app_nil_r in H0. rewrite H0.
  rewrite IH; [by rewrite <- app_assoc|].
  intros l1 y l2 ->. rewrite <- app_assoc. apply (H (x :: l1) y l2). done.
Qed.

(** X6.  Without [flip] the expansion is stable: expanding the ratios of an
    output again (all but the leading 1.0) returns that output. *)
Theorem expand_no_flip_idempotent input :
  ExpandAspectRatios (tl (ExpandAspectRatios input false)) false
  = ExpandAspectRatios input false.
Proof.
  destruct (expand_head input false) as [rest E]. rewrite E. cbn [tl].
  unfold ExpandAspectRatios at 1. apply expand_keep_all.
  intros l1 x l2 ->. apply (expand_fresh input _ x l2); [|done].
  by rewrite E.
Qed.

Lemma expand_no_flip_spaced_witness :
  within_eps (F32.of_Z 3) (F32.of_Z 2) = false.
Proof.
  apply (expand_no_flip_spaced [F32.of_Z 2; F32.of_Z 3] 1 2);
    [lia | vm_compute; reflexivity | vm_compute; reflexivity].
Defined.

(** ** The two tests of closeness to 1.0 *)

Lemma eps_eq : eps = S754_finite false 8796093 (-43).
Proof. by vm_compute. Qed.

Lemma sub_one_num r :
  F32.valid r = true -> is_num r = true ->
  F32.valid (F32.sub r (F32.of_Z 1)) = true
  /\ is_num (F32.sub r (F32.of_Z 1)) = true.
Proof.
  intros V N. apply (SFsub_num F32.prec F32.emax prec32_pos); done.
Qed.

Lemma sub_one_mono r1 r2 :
  F32.valid r1 = true -> F32.valid r2 = true ->
  is_num r1 = true -> is_num r2 = true -> xle (val r1) (val r2) ->
  xle (val (F32.sub r1 (F32.of_Z 1))) (val (F32.sub r2 (F32.of_Z 1))).
Proof.
  intros. apply (SFsub_mono_l F32.prec F32.emax prec32_pos); done.
Qed.

(** no ratio from [ratio_above] upwards passes the test of the expansion *)
Lemma within_eps_lower r :
  F32.valid r = true -> is_num r = true ->
  xle (val ratio_above) (val r) -> within_eps r (F32.of_Z 1) = false.
Proof.
  intros V N H. unfold within_eps.
  destruct (sub_one_num r V N) as [Vz Nz].
  pose proof (sub_one_mono ratio_above r eq_refl V eq_refl N H) as Hz.
  apply (abs_ge F32.prec F32.emax prec32_pos);
    [done|done|by vm_compute|by vm_compute| |].
  - rewrite eps_eq. apply mant_pos.
  - left. eapply xle_trans; [|exact Hz].
    apply SFleb_xle32; by vm_compute.
Qed.

(** nor any ratio up to [ratio_below] *)
Lemma within_eps_upper r :
  F32.valid r = true -> is_num r = true ->
  xle (val r) (val ratio_below) -> within_eps r (F32.of_Z 1) = false.
Proof.
  intros V N H. unfold within_eps.
  destruct (sub_one_num r V N) as [Vz Nz].
  pose proof (sub_one_mono r ratio_below V eq_refl N eq_refl H) as Hz.
  apply (abs_ge F32.prec F32.emax prec32_pos);
    [done|done|by vm_compute|by vm_compute| |].
  - rewrite eps_eq. apply mant_pos.
  - right. eapply xle_trans; [exact Hz|].
    apply SFleb_xle32; by vm_compute.
Qed.

(** X9.  The test [fabs(ar - x) < eps] of the expansion, taken at [x = 1.0] in
    [float], and the test [fabs(ar - 1.) < 1e-6] of the generator, taken in
    [double], accept the same binary32 values. *)
Theorem unit_tests_agree ar :
  F32.valid ar = true ->
  is_unit_ratio ar = within_eps ar (F32.of_Z 1).
Proof.
  intros V.
  destruct (within_eps ar (F32.of_Z 1)) eqn:W; [|by apply unit_gap].
  destruct (is_unit_ratio ar) eqn:U; [done|exfalso].
  destruct (is_num ar) eqn:N; [|destruct ar; done].
  destruct (SFleb ratio_above ar) eqn:Ha.
  { apply SFleb_xle32 in Ha; [|done..].
    rewrite within_eps_lower in W; done. }
  destruct (SFleb ar ratio_below) eqn:Hb.
  { apply SFleb_xle32 in Hb; [|done..].
    rewrite within_eps_upper in W; done. }
  clear W. revert U.
  destruct ar as [s|[]| |[] m e]; try done.
  unfold F32.valid in V. cbn [valid_binary] in V.
  pose proof (bounded_digits F32.prec F32.emax m e V) as (Hd & He & Hn).
  pose proof (Zdigits2_bounds (Zpos m) ltac:(lia)) as [Hl Hu].
  unfold SFleb, ratio_above, ratio_below in Ha, Hb. cbn [SFcompare] in Ha, Hb.
  rewrite Pos.compare_cont_spec in Ha, Hb. cbn [Pos.switch_Eq] in Ha, Hb.
  assert (Hcase : (e = -23 /\ Zpos m < 8388617)%Z
                  \/ (e = -24 /\ 16777199 < Zpos m)%Z).
  { destruct (Z.compare_spec (-23) e) as [E1|E1|E1];
      destruct (Z.compare_spec e (-24)) as [E2|E2|E2]; try done; try lia.
    - left. split; [lia|]. subst e.
      destruct (Pos.compare_spec 8388617 m); try done; lia.
    - right. split; [lia|]. subst e.
      destruct (Pos.compare_spec m 16777199); try done; lia. }
  change (emin F32.prec F32.emax) with (-149)%Z in *.
  change F32.prec with 24%Z in *.
  assert (R : forall e a n,
    forallb (fun k => is_unit_ratio
                        (S754_finite false (Z.to_pos (a + Z.of_nat k)) e))
            (seq 0 n) = true ->
    (a <= Zpos m < a + Z.of_nat n)%Z ->
    is_unit_ratio (S754_finite false m e) = true).
  { intros e' a n H Hm. rewrite forallb_forall in H.
    specialize (H (Z.to_nat (Zpos m - a))).
    replace (a + Z.of_nat (Z.to_nat (Zpos m - a)))%Z with (Zpos m) in H by lia.
    apply H, in_seq. lia. }
  destruct Hcase as [[-> Hm]|[-> Hm]]; intros U.
  - rewrite Hn in Hl by lia.
    rewrite (R (-23)%Z 8388608%Z 9) in U; [done|by vm_compute|].
    change (2 ^ (24 - 1))%Z with 8388608%Z in Hl. lia.
  - assert (Zpos m < 2 ^ 24)%Z.
    { eapply Z.lt_le_trans; [exact Hu|]. apply Z.pow_le_mono_r; lia. }
    rewrite (R (-24)%Z 16777200%Z 16) in U; [done|by vm_compute|].
    change (2 ^ 24)%Z with 16777216%Z in *. lia.
Qed.

Lemma unit_tests_agree_witness :
  is_unit_ratio (F32.of_Z 2) = within_eps (F32.of_Z 2) (F32.of_Z 1).
Proof. apply unit_tests_agree. vm_compute. reflexivity. Defined.

(** ** PriorBoxOpKernel::Compute: which entries are written *)

(** the number of priors that the loops write in a cell *)
Lemma written_count c :
  Forall (fun r => F32.valid r = true) (aspect_ratios c) ->
  length (cell_priors c (ExpandAspectRatios (aspect_ratios c) (flip c)))
  = length (min_sizes c)
    * (length (ExpandAspectRatios (aspect_ratios c) (flip c))
       + (if 0 <? length (max_sizes c) then 1 else 0)).
Proof.
  intros Hv. rewrite length_cell_priors, non_unit_expand by done.
  destruct (expand_head (aspect_ratios c) (flip c)) as [rest ->].
  cbn [tl length]. destruct (0 <? length (max_sizes c)); lia.
Qed.

(** X10.  For aspect ratios that are binary32 values and [max_sizes] empty
    or at least as long as [min_sizes], the entries of [Boxes] that hold a
    value are exactly those of the cells of the layer, with a coordinate
    index below 4 and a prior index below
    [len(min_sizes) * (len(expanded) + 1)] when [max_sizes] is not empty and
    [len(min_sizes) * len(expanded)] when it is; [clip] does not change
    them, and that bound is at most
    [len(expanded) * len(min_sizes) + len(max_sizes)], the third dimension
    of the tensor. *)
Theorem written_entries c h w i k :
  Forall (fun r => F32.valid r = true) (aspect_ratios c) ->
  max_sizes c = [] \/ length (min_sizes c) <= length (max_sizes c) ->
  (is_Some (Boxes (PriorBoxOpKernel_Compute c) !! (h, w, i, k))
   <-> h < layer_height c /\ w < layer_width c /\ k < 4
       /\ i < length (min_sizes c)
              * (length (ExpandAspectRatios (aspect_ratios c) (flip c))
                 + (if 0 <? length (max_sizes c) then 1 else 0)))
  /\ length (min_sizes c)
     * (length (ExpandAspectRatios (aspect_ratios c) (flip c))
        + (if 0 <? length (max_sizes c) then 1 else 0))
     <= length (ExpandAspectRatios (aspect_ratios c) (flip c))
        * length (min_sizes c) + length (max_sizes c).
Proof.
  intros Hv Hlen. split.
  - rewrite Boxes_lookup, fmap_is_Some, generate_lookup.
    rewrite <- written_count by done.
    case_decide as Hd.
    + destruct (cell_priors c _ !! i) as [p|] eqn:E; cbn.
      * apply lookup_lt_Some in E.
        destruct k as [|[|[|[|k]]]]; cbn; split; eauto; lia.
      * apply lookup_ge_None in E. split; [by intros []|lia].
    + split; [by intros []|]. tauto.
  - destruct Hlen as [->|Hlen]; cbn [length].
    + change (0 <? 0) with false. cbv iota. lia.
    + destruct (0 <? length (max_sizes c)); lia.
Qed.

Lemma written_entries_witness :
  (is_Some (Boxes (PriorBoxOpKernel_Compute ex_count) !! (0, 0, 2, 3))
   <-> 0 < 1 /\ 0 < 1 /\ 3 < 4 /\ 2 < 1 * (2 + 1))
  /\ 1 * (2 + 1) <= 2 * 1 + 1.
Proof.
  apply (written_entries ex_count 0 0 2 3); [repeat constructor|].
  right. cbn. lia.
Defined.

(** X11.  For aspect ratios that are binary32 values, the index [idx] at the
    end of a cell is [num_priors] exactly when [max_sizes] is empty or as long
    as [min_sizes]: with any other length the variances have more or fewer
    rows than there are boxes. *)
Theorem count_matches_iff c h w e :
  Forall (fun r => F32.valid r = true) (aspect_ratios c) ->
  snd (cell c (ExpandAspectRatios (aspect_ratios c) (flip c)) h w e)
  = num_priors c
  <-> max_sizes c = [] \/ length (max_sizes c) = length (min_sizes c).
Proof.
  intros Hv. rewrite cell_idx, written_count by done. unfold num_priors.
  destruct (expand_head (aspect_ratios c) (flip c)) as [rest ->].
  destruct (max_sizes c) as [|x l]; cbn [length].
  - change (0 <? 0) with false. cbv iota. split; [auto|lia].
  - change (0 <? S (length l)) with true. cbv iota. split.
    + intros H. right. lia.
    + intros [H|H]; [done|]. lia.
Qed.

Lemma count_matches_iff_witness :
  snd (cell (ex_config [30%Z] [60%Z; 120%Z] [])
            (ExpandAspectRatios [] false) 0 0 ∅) = 3
  <-> [60%Z; 120%Z] = [] \/ 2 = 1.
Proof.
  refine (count_matches_iff (ex_config [30%Z] [60%Z; 120%Z] []) 0 0 ∅ _).
  constructor.
Defined.

(** X12.  [Boxes] is empty exactly when [min_sizes] is empty or the layer has
    no cell. *)
Theorem no_boxes_iff c :
  Boxes (PriorBoxOpKernel_Compute c) = ∅
  <-> min_sizes c = [] \/ layer_height c = 0 \/ layer_width c = 0.
Proof.
  split.
  - intros E.
    destruct (min_sizes c) as [|a l] eqn:Hm; [by left|].
    destruct (layer_height c) as [|H] eqn:HH; [auto|].
    destruct (layer_width c) as [|W] eqn:HW; [auto|].
    exfalso.
    assert (L : Boxes (PriorBoxOpKernel_Compute c) !! (0, 0, 0, 0) = None)
      by (by rewrite E).
    rewrite Boxes_lookup, generate_lookup, decide_True in L by lia.
    unfold cell_priors, size_priors in L. rewrite Hm in L. done.
  - intros H. apply map_eq. intros [[[h w] i] k].
    rewrite Boxes_lookup, generate_lookup, lookup_empty.
    case_decide as Hd; [|done].
    destruct H as [H|[H|H]]; [|lia..].
    unfold cell_priors. rewrite H. done.
Qed.

(** X14.  The x-coordinates of a prior are the same in every row of the layer
    and its y-coordinates the same in every column. *)
Theorem rows_and_columns c h h' w w' i :
  h < layer_height c -> h' < layer_height c ->
  w < layer_width c -> w' < layer_width c ->
  let boxes := Boxes (PriorBoxOpKernel_Compute c) in
  boxes !! (h, w, i, 0) = boxes !! (h', w, i, 0)
  /\ boxes !! (h, w, i, 2) = boxes !! (h', w, i, 2)
  /\ boxes !! (h, w, i, 1) = boxes !! (h, w', i, 1)
  /\ boxes !! (h, w, i, 3) = boxes !! (h, w', i, 3).
Proof.
  intros Hh Hh' Hw Hw' boxes. unfold boxes.
  rewrite !Boxes_lookup, !generate_lookup, !decide_True by lia.
  destruct (cell_priors c _ !! i); done.
Qed.

Lemma rows_and_columns_witness :
  Boxes (PriorBoxOpKernel_Compute ex_grid) !! (0, 2, 3, 0)
  = Boxes (PriorBoxOpKernel_Compute ex_grid) !! (1, 2, 3, 0).
Proof.
  apply (rows_and_columns ex_grid 0 1 2 2 3); cbn; lia.
Defined.

(** ** ClipFunctor: order and fixed points *)

(** X17.  [ClipFunctor] is monotone on binary32 numbers. *)
Theorem clip_monotone x y :
  F32.valid x = true -> F32.valid y = true ->
  x <> S754_nan -> y <> S754_nan ->
  SFleb x y = true ->
  SFleb (ClipFunctor x) (ClipFunctor y) = true.
Proof.
  intros Vx Vy Nx Ny H.
  assert (is_num x = true) by (by destruct x).
  assert (is_num y = true) by (by destruct y).
  apply ClipFunctor_mono; try done.
  by apply SFleb_xle32.
Qed.

Lemma clip_monotone_witness :
  SFleb (ClipFunctor (F32.of_Z (-3))) (ClipFunctor half) = true.
Proof. apply clip_monotone; vm_compute; congruence. Defined.

Lemma SFltb_of_leb x y : SFleb x y = true -> SFltb y x = false.
Proof.
  unfold SFltb, SFleb. rewrite (SFcompare_antisym y x).
  destruct (SFcompare x y) as [[]|]; done.
Qed.

(** X18.  The values that [ClipFunctor] leaves as they are are NaN and the
    values of [0, 1], the negative zero among them. *)
Theorem clip_fixed_points x :
  ClipFunctor x = x
  <-> x = S754_nan
      \/ (SFleb (F32.of_Z 0) x = true /\ SFleb x (F32.of_Z 1) = true).
Proof.
  split.
  - intros E. destruct (ClipFunctor_cases x) as [H|[H|(_ & H0 & H1)]].
    + right. rewrite <- E, H. by vm_compute.
    + right. rewrite <- E, H. by vm_compute.
    + destruct x as [s|s| |s m e]; [right|right|by left|right];
        split; apply SFleb_of_not_ltb; done.
  - intros [->|[H0 H1]]; [done|].
    rewrite ClipFunctor_eq.
    by rewrite (SFltb_of_leb _ _ H0), (SFltb_of_leb _ _ H1).
Qed.

(** ** PriorBoxOpKernel::Compute: the values written *)

Lemma ClipFunctor_num x :
  F32.valid x = true -> is_num x = true ->
  F32.valid (ClipFunctor x) = true /\ is_num (ClipFunctor x) = true.
Proof.
  intros V N. destruct (ClipFunctor_cases x) as [->|[->|[-> _]]]; done.
Qed.

Section Values.
Context (c : config) (h w : nat).
Hypothesis Hmin : Forall (fun z => (0 < z < 2 ^ 31)%Z) (min_sizes c).
Hypothesis Hmax : Forall (fun z => (0 < z < 2 ^ 31)%Z) (max_sizes c).
Hypothesis Hprod : forall s,
  (nth s (min_sizes c) 0 * nth s (max_sizes c) 0 < 2 ^ 31)%Z.
Hypothesis Hars : Forall (fun r => has_sign false r = true) (aspect_ratios c).
Hypothesis Hiw : (1 <= Z.of_nat (img_width c) <= 2 ^ 63)%Z.
Hypothesis Hih : (1 <= Z.of_nat (img_height c) <= 2 ^ 63)%Z.
Hypothesis Hcx : finite32 (center_x c w) = true.
Hypothesis Hcy : finite32 (center_y c h) = true.

Lemma generated_num i k v :
  generate c !! (h, w, i, k) = Some v ->
  F32.valid v = true /\ is_num v = true.
Proof.
  rewrite generate_lookup. case_decide as Hd; [|done].
  destruct (cell_priors c (ExpandAspectRatios (aspect_ratios c) (flip c)) !! i)
    as [p|] eqn:Hp; [|done].
  destruct (cell_priors_has_sign c _ Hmin Hmax Hprod
              (expand_has_sign _ _ Hars) i p Hp) as [Hw' Hh'].
  pose proof (coord_le (center_x c w) (fst p) (img_width c) Hcx Hw' Hiw)
    as (? & ? & ? & ? & _).
  pose proof (coord_le (center_y c h) (snd p) (img_height c) Hcy Hh' Hih)
    as (? & ? & ? & ? & _).
  destruct k as [|[|[|[|k]]]]; cbn; intros [= <-]; done.
Qed.

Lemma stored_num i k v :
  Boxes (PriorBoxOpKernel_Compute c) !! (h, w, i, k) = Some v ->
  F32.valid v = true /\ is_num v = true.
Proof.
  rewrite Boxes_lookup, fmap_Some. intros (v0 & Hg & ->).
  destruct (generated_num i k v0 Hg) as [V N].
  destruct (clip c); [by apply ClipFunctor_num|done].
Qed.

End Values.

(** X15.  Take [max_sizes] empty or at least as long as [min_sizes],
    positive [int] sizes with no product [min_sizes[s] * max_sizes[s]]
    beyond the range of [int], aspect ratios that are numbers with a clear
    sign bit, an image with at least one pixel in each direction and a cell
    whose centre is finite.  Then no coordinate stored for that cell is
    NaN, clipped or not. *)
Theorem stored_not_nan c h w i k v :
  max_sizes c = [] \/ length (min_sizes c) <= length (max_sizes c) ->
  Forall (fun z => (0 < z < 2 ^ 31)%Z) (min_sizes c) ->
  Forall (fun z => (0 < z < 2 ^ 31)%Z) (max_sizes c) ->
  (forall s, (nth s (min_sizes c) 0 * nth s (max_sizes c) 0 < 2 ^ 31)%Z) ->
  Forall (fun r => has_sign false r = true) (aspect_ratios c) ->
  (1 <= Z.of_nat (img_width c) <= 2 ^ 63)%Z ->
  (1 <= Z.of_nat (img_height c) <= 2 ^ 63)%Z ->
  finite32 (center_x c w) = true ->
  finite32 (center_y c h) = true ->
  Boxes (PriorBoxOpKernel_Compute c) !! (h, w, i, k) = Some v ->
  v <> S754_nan /\ F32.valid v = true.
Proof.
  intros _ Hmin Hmax Hprod Hars Hiw Hih Hcx Hcy Hv.
  destruct (stored_num c h w Hmin Hmax Hprod Hars Hiw Hih Hcx Hcy i k v Hv)
    as [V N].
  split; [|done]. by intros ->.
Qed.

Lemma stored_not_nan_witness :
  ClipFunctor (coord_min (center_x ex_grid 2) (ratio_width 30 (F32.of_Z 2)) 300)
  <> S754_nan.
Proof.
  refine (proj1 (stored_not_nan ex_grid 1 2 2 0 _ _ _ _ _ _ _ _ _ _ _)).
  - right. cbn. lia.
  - repeat constructor.
  - repeat constructor.
  - intros [|[|[|s]]]; cbn; lia.
  - repeat constructor.
  - cbn; lia.
  - cbn; lia.
  - vm_compute; reflexivity.
  - vm_compute; reflexivity.
  - vm_compute; reflexivity.
Defined.

(** X16.  Under the same conditions and with [clip], every coordinate stored
    for that cell lies in [0, 1]. *)
Theorem clipped_in_range c h w i k v :
  max_sizes c = [] \/ length (min_sizes c) <= length (max_sizes c) ->
  Forall (fun z => (0 < z < 2 ^ 31)%Z) (min_sizes c) ->
  Forall (fun z => (0 < z < 2 ^ 31)%Z) (max_sizes c) ->
  (forall s, (nth s (min_sizes c) 0 * nth s (max_sizes c) 0 < 2 ^ 31)%Z) ->
  Forall (fun r => has_sign false r = true) (aspect_ratios c) ->
  (1 <= Z.of_nat (img_width c) <= 2 ^ 63)%Z ->
  (1 <= Z.of_nat (img_height c) <= 2 ^ 63)%Z ->
  finite32 (center_x c w) = true ->
  finite32 (center_y c h) = true ->
  clip c = true ->
  Boxes (PriorBoxOpKernel_Compute c) !! (h, w, i, k) = Some v ->
  SFleb (F32.of_Z 0) v = true /\ SFleb v (F32.of_Z 1) = true.
Proof.
  intros _ Hmin Hmax Hprod Hars Hiw Hih Hcx Hcy Hclip.
  rewrite Boxes_lookup, Hclip, fmap_Some. intros (v0 & Hg & ->).
  destruct (generated_num c h w Hmin Hmax Hprod Hars Hiw Hih Hcx Hcy i k v0 Hg)
    as [V N].
  destruct (ClipFunctor_cases v0) as [->|[->|(-> & H0 & H1)]]; [done..|].
  assert (v0 <> S754_nan) by (by intros ->).
  split; apply SFleb_of_not_ltb; done.
Qed.

Lemma clipped_in_range_witness :
  SFleb (F32.of_Z 0)
        (ClipFunctor (coord_min (center_x ex_grid 0) (max_side 60 120) 300))
  = true
  /\ SFleb (ClipFunctor (coord_min (center_x ex_grid 0) (max_side 60 120) 300))
           (F32.of_Z 1)
     = true.
Proof.
  refine (clipped_in_range ex_grid 0 0 5 0 _ _ _ _ _ _ _ _ _ _ _ _).
  - right. cbn. lia.
  - repeat constructor.
  - repeat constructor.
  - intros [|[|[|s]]]; cbn; lia.
  - repeat constructor.
  - cbn; lia.
  - cbn; lia.
  - vm_compute; reflexivity.
  - vm_compute; reflexivity.
  - reflexivity.
  - vm_compute; reflexivity.
Defined.

(** ** ExpandAspectRatios: repeated and undefined ratios *)

Lemma within_eps_refl ar :
  F32.valid ar = true -> is_fin ar = true -> within_eps ar ar = true.
Proof.
  intros V F. unfold within_eps.
  destruct (SFsub_Rnd F32.prec F32.emax prec32_pos ar ar V V F F)
    as [[_ [s E]]|[[H _]|[H _]]].
  - unfold F32.sub. rewrite E. by vm_compute.
  - lra.
  - lra.
Qed.

Lemma already_exist_app ar l1 l2 :
  already_exist ar (l1 ++ l2) = already_exist ar l1 || already_exist ar l2.
Proof. by rewrite !already_exist_existsb, existsb_app. Qed.

(** X7.  Every finite ratio of the input has an entry within [eps] of it in
    the output, itself or an earlier one. *)
Theorem expand_covers input flip ar :
  F32.valid ar = true -> is_fin ar = true -> In ar input ->
  exists x, In x (ExpandAspectRatios input flip) /\ within_eps ar x = true.
Proof.
  intros V F Hin. apply existsb_exists. rewrite <- already_exist_existsb.
  induction input as [|a input IH] using rev_ind; [done|].
  rewrite expand_snoc, expand_step_app, already_exist_app.
  apply in_app_or in Hin as [Hin|[->|[]]].
  - by rewrite IH.
  - destruct (already_exist ar (ExpandAspectRatios input flip)) eqn:E; [done|].
    cbn [already_exist orb]. by rewrite within_eps_refl.
Qed.

Lemma expand_covers_witness :
  exists x, In x (ExpandAspectRatios [F32.of_Z 2; F32.of_Z 2] true)
            /\ within_eps (F32.of_Z 2) x = true.
Proof.
  apply expand_covers; [vm_compute; reflexivity|reflexivity|].
  right. left. reflexivity.
Defined.

(** X8.  A NaN ratio is never taken for a duplicate: every occurrence of it is
    appended, with its reciprocal, which is NaN, when [flip] is set. *)
Theorem expand_nan input flip :
  ExpandAspectRatios (input ++ [S754_nan]) flip
  = ExpandAspectRatios input flip
    ++ S754_nan :: (if flip then [S754_nan] else []).
Proof.
  rewrite expand_snoc, expand_step_app.
  assert (E : forall l, already_exist S754_nan l = false).
  { induction l as [|x l IH]; [done|]. cbn [already_exist].
    assert (W : within_eps S754_nan x = false) by (by destruct x).
    by rewrite W. }
  by rewrite E.
Qed.

(** ** PriorBoxOpKernel::Compute: the index of a prior *)

Lemma lookup_flat_map_const {A B} (f : A -> list B) n l : forall s j,
  (forall x, length (f x) = n) -> j < n ->
  flat_map f l !! (s * n + j) = l !! s ≫= fun x => f x !! j.
Proof.
  induction l as [|a l IH]; intros s j Hn Hj.
  - by rewrite !lookup_nil.
  - cbn [flat_map]. destruct s as [|s].
    + rewrite lookup_app_l by (rewrite Hn; lia). done.
    + rewrite lookup_app_r by (rewrite Hn; lia).
      replace (S s * n + j - length (f a)) with (s * n + j)
        by (rewrite Hn; lia).
      by rewrite IH.
Qed.

(** X13.  Take [max_sizes] empty or at least as long as [min_sizes].  The
    priors of a cell come in blocks of equal length, one block per entry
    of [min_sizes]: with [per] priors in a block, the prior [j] of the size
    [s] has the index [s * per + j] in every cell. *)
Theorem prior_index c h w s j k :
  max_sizes c = [] \/ length (min_sizes c) <= length (max_sizes c) ->
  h < layer_height c -> w < layer_width c -> k < 4 ->
  s < length (min_sizes c) ->
  let ars := ExpandAspectRatios (aspect_ratios c) (flip c) in
  let per :=
    1 + (if 0 <? length (max_sizes c) then 1 else 0)
    + length (filter (fun r => is_unit_ratio r = false) ars) in
  j < per ->
  generate c !! (h, w, s * per + j, k)
  = ([(F32.of_Z (nth s (min_sizes c) 0%Z), F32.of_Z (nth s (min_sizes c) 0%Z))]
     ++ (if 0 <? length (max_sizes c)
         then [(max_side (nth s (min_sizes c) 0%Z) (nth s (max_sizes c) 0%Z),
                max_side (nth s (min_sizes c) 0%Z) (nth s (max_sizes c) 0%Z))]
         else [])
     ++ map (fun r => (ratio_width (nth s (min_sizes c) 0%Z) r,
                       ratio_height (nth s (min_sizes c) 0%Z) r))
            (filter (fun r => is_unit_ratio r = false) ars)) !! j
    ≫= fun p => prior_coord c h w p k.
Proof.
  intros _ Hh Hw Hk Hs ars per Hj.
  rewrite generate_lookup, decide_True by done. fold ars.
  unfold cell_priors.
  rewrite (lookup_flat_map_const (size_priors c ars) per); [|..|done].
  - rewrite lookup_seq_lt by done. done.
  - intros x. unfold size_priors, per, non_unit.
    rewrite !length_app, length_map.
    destruct (0 <? length (max_sizes c)); cbn [length]; lia.
Qed.

Lemma prior_index_witness :
  generate ex_grid !! (1, 2, 1 * 4 + 1, 2)
  = Some (coord_max (center_x ex_grid 2) (max_side 60 120) 300).
Proof.
  refine (eq_trans (prior_index ex_grid 1 2 1 1 2 _ _ _ _ _ _) _).
  - right. cbn. lia.
  - cbn; lia.
  - cbn; lia.
  - lia.
  - cbn; lia.
  - vm_compute. lia.
  - vm_compute. reflexivity.
Defined.

